(** * Instrumented heap sort ([src/pas.py], class [HeapSort])

    A shallow embedding of the [HeapSort] class: the object is a record,
    every method is a state transformer that may raise, and the recursion
    of [_heapify] is bounded by an explicit budget of nested calls. *)

From stdpp Require Import base list strings sorting pretty.
From Stdlib Require Import Arith Lia.

(** ** Python run-time outcomes *)

Inductive exn : Type :=
  | IndexError
  | AttributeError
  | RecursionError.

Inductive outcome (X : Type) : Type :=
  | Ok (x : X)
  | Raise (e : exn).
Arguments Ok {X} x.
Arguments Raise {X} e.

(** Python's [>] on non-negative integers, for concrete runs. *)
Definition nat_gt (a b : nat) : bool := b <? a.

(** [range(hi - 1, lo - 1, -1)]: the indices [hi-1, ..., lo], descending. *)
Definition range_desc (hi lo : nat) : list nat := rev (seq lo (hi - lo)).

Section HeapSort.

(** Projected keys, with Python's [>] on them, and clock readings with
    their difference ([time.time() - start_time]). *)
Variable K : Type.
Variable gt : K → K → bool.
Variable timestamp : Type.
Variable elapsed : timestamp → timestamp → timestamp.

Variable A : Type.

(** The attributes of a [HeapSort] instance. [execution_time] is only
    created by [sort]; before that the attribute does not exist. *)
Record HeapSort : Type := mkHeapSort {
  original_data : list A;
  data : list A;
  reverse : bool;
  key : A → K;
  comparisons : nat;
  swaps : nat;
  steps : list (list A);
  execution_time : option timestamp
}.

Definition set_data (f : list A → list A) (self : HeapSort) : HeapSort :=
  mkHeapSort (original_data self) (f (data self)) (reverse self) (key self)
             (comparisons self) (swaps self) (steps self) (execution_time self).
Definition set_comparisons (f : nat → nat) (self : HeapSort) : HeapSort :=
  mkHeapSort (original_data self) (data self) (reverse self) (key self)
             (f (comparisons self)) (swaps self) (steps self) (execution_time self).
Definition set_swaps (f : nat → nat) (self : HeapSort) : HeapSort :=
  mkHeapSort (original_data self) (data self) (reverse self) (key self)
             (comparisons self) (f (swaps self)) (steps self) (execution_time self).
Definition set_steps (f : list (list A) → list (list A)) (self : HeapSort) : HeapSort :=
  mkHeapSort (original_data self) (data self) (reverse self) (key self)
             (comparisons self) (swaps self) (f (steps self)) (execution_time self).
Definition set_execution_time (t : timestamp) (self : HeapSort) : HeapSort :=
  mkHeapSort (original_data self) (data self) (reverse self) (key self)
             (comparisons self) (swaps self) (steps self) (Some t).

(** ** Methods as state transformers that may raise *)

Definition M (X : Type) : Type := HeapSort → outcome X * HeapSort.

Definition ret {X} (x : X) : M X := λ self, (Ok x, self).
Definition raise {X} (e : exn) : M X := λ self, (Raise e, self).
Definition bind {X Y} (m : M X) (f : X → M Y) : M Y :=
  λ self, match m self with
          | (Ok x, self') => f x self'
          | (Raise e, self') => (Raise e, self')
          end.

#[local] Instance M_ret : MRet M := @ret.
#[local] Instance M_bind : MBind M := λ X Y f m, bind m f.

Definition attr {X} (f : HeapSort → X) : M X := λ self, (Ok (f self), self).
Definition update (f : HeapSort → HeapSort) : M unit := λ self, (Ok tt, f self).

(** [self.data[i]] as an expression and as an assignment target. *)
Definition getitem (i : nat) : M A :=
  λ self, match data self !! i with
          | Some x => (Ok x, self)
          | None => (Raise IndexError, self)
          end.
Definition setitem (i : nat) (x : A) : M unit :=
  λ self, if decide (i < length (data self))
          then (Ok tt, set_data (λ l, <[i:=x]> l) self)
          else (Raise IndexError, self).

Fixpoint for_each (l : list nat) (body : nat → M unit) : M unit :=
  match l with
  | [] => ret tt
  | i :: l' => body i ;; for_each l' body
  end.

(** [HeapSort.__init__]. Both lists are copies of the argument. A missing
    (or falsy) [key] becomes [dflt], which stands for [lambda x: x]: the
    identity whenever the items are their own keys. *)
Definition __init__ (dflt : A → K) (input : list A) (rev : bool)
    (k : option (A → K)) : HeapSort :=
  {| original_data := input;
     data := input;
     reverse := rev;
     key := match k with Some f => f | None => dflt end;
     comparisons := 0;
     swaps := 0;
     steps := [];
     execution_time := None |}.

(** [HeapSort._heapify]. [depth] is the number of nested self-calls still
    allowed; Python raises [RecursionError] when its limit is exceeded. *)
Fixpoint _heapify (depth : nat) (n i : nat) : M unit :=
  let largest := i in
  let left := 2 * i + 1 in
  let right := 2 * i + 2 in
  largest ← (if decide (left < n) then
                update (set_comparisons (λ c, c + 1));;
                x ← getitem left;
                y ← getitem largest;
                kf ← attr key;
                r ← attr reverse;
                if xorb (gt (kf x) (kf y)) r then ret left else ret largest
              else ret largest);
  largest ← (if decide (right < n) then
                update (set_comparisons (λ c, c + 1));;
                x ← getitem right;
                y ← getitem largest;
                kf ← attr key;
                r ← attr reverse;
                if xorb (gt (kf x) (kf y)) r then ret right else ret largest
              else ret largest);
  if decide (largest ≠ i) then
    update (set_swaps (λ s, s + 1));;
    x ← getitem largest;
    y ← getitem i;
    setitem i x;;
    setitem largest y;;
    snapshot ← attr data;
    update (set_steps (λ log, log ++ [snapshot]));;
    match depth with
    | 0 => raise RecursionError
    | S depth' => _heapify depth' n largest
    end
  else ret tt.

(** [HeapSort._build_heap] *)
Definition _build_heap (depth : nat) : M unit :=
  n ← attr (λ self, length (data self));
  for_each (range_desc (n / 2) 0) (λ i, _heapify depth n i).

(** [HeapSort.sort]; [t0] and [t1] are the two readings of [time.time()]. *)
Definition sort (depth : nat) (t0 t1 : timestamp) : M (list A) :=
  let start_time := t0 in
  _build_heap depth;;
  n ← attr (λ self, length (data self));
  for_each (range_desc n 1) (λ i,
    x ← getitem i;
    y ← getitem 0;
    setitem 0 x;;
    setitem i y;;
    snapshot ← attr data;
    update (set_steps (λ log, log ++ [snapshot]));;
    _heapify depth i 0);;
  update (set_execution_time (elapsed t1 start_time));;
  attr data.

(** Reading [self.execution_time] raises when [sort] never ran. *)
Definition getattr_execution_time : M timestamp :=
  λ self, match execution_time self with
          | Some t => (Ok t, self)
          | None => (Raise AttributeError, self)
          end.

(** Values stored in the dictionary that [analyze] builds. *)
Inductive pyval : Type :=
  | VInt (n : nat)
  | VFloat (t : timestamp).

(** [HeapSort.analyze]: the dictionary display, evaluated left to right.
    Reading [self.execution_time] raises when [sort] never ran. *)
Definition analyze : M (list (string * pyval)) :=
  v_size ← attr (λ self, length (data self));
  v_comparisons ← attr comparisons;
  v_swaps ← attr swaps;
  v_time ← getattr_execution_time;
  v_steps ← attr (λ self, length (steps self));
  ret [ ("data_size"%string, VInt v_size);
        ("comparisons"%string, VInt v_comparisons);
        ("swaps"%string, VInt v_swaps);
        ("time"%string, VFloat v_time);
        ("steps"%string, VInt v_steps) ].

(** ** Vocabulary of the statements *)

(** The test of [_heapify], [(key(data[c]) > key(data[p])) ^ reverse], read
    off the object; [false] when an index is out of range. *)
Definition prefers (self : HeapSort) (c p : nat) : bool :=
  match data self !! c, data self !! p with
  | Some x, Some y => xorb (gt (key self x) (key self y)) (reverse self)
  | _, _ => false
  end.

(** One of the two [if child < n] blocks: the new value of [largest]. *)
Definition consider (self : HeapSort) (n c largest : nat) : nat :=
  if decide (c < n) then (if prefers self c largest then c else largest)
  else largest.

(** The value of [largest] when [_heapify n i] reaches [if largest != i]. *)
Definition select (self : HeapSort) (n i : nat) : nat :=
  consider self n (2 * i + 2) (consider self n (2 * i + 1) i).

(** How many children of node [i] lie inside a heap of size [n]. *)
Definition children_in (n i : nat) : nat :=
  (if decide (2 * i + 1 < n) then 1 else 0) +
  (if decide (2 * i + 2 < n) then 1 else 0).

(** The effect of [l[i], l[j] = l[j], l[i]] on a list with both indices
    in range. *)
Definition swap_items (i j : nat) (l : list A) : list A :=
  match l !! j, l !! i with
  | Some x, Some y => <[j:=y]> (<[i:=x]> l)
  | _, _ => l
  end.

(** The object after the swap branch of [_heapify n i] moved [data[c]] up,
    just before the nested call. *)
Definition swapped (self : HeapSort) (n i c : nat) : HeapSort :=
  set_steps (λ log, log ++ [swap_items i c (data self)])
    (set_data (swap_items i c)
       (set_swaps (λ s, s + 1)
          (set_comparisons (λ k, k + children_in n i) self))).

(** The body of the [for i in range(n-1, 0, -1)] loop of [sort], named. *)
Definition extract_max (depth : nat) (i : nat) : M unit :=
  x ← getitem i;
  y ← getitem 0;
  setitem 0 x;;
  setitem i y;;
  snapshot ← attr data;
  update (set_steps (λ log, log ++ [snapshot]));;
  _heapify depth i 0.

(** The object after one iteration of the loop of [sort] swapped the
    root with [data[i]], just before the call of [_heapify]. *)
Definition extracted (self : HeapSort) (i : nat) : HeapSort :=
  set_steps (λ log, log ++ [swap_items 0 i (data self)])
    (set_data (swap_items 0 i) self).

(** Python's three-way comparison of projected keys, from [>] alone. *)
Definition compare_keys (a b : K) : comparison :=
  if gt a b then Gt else if gt b a then Lt else Eq.

(** The ordering policy [(reverse, key)] as a three-way comparison: the key
    comparison, with its outcome inverted when [reverse] is set. *)
Definition effective_compare (self : HeapSort) (x y : A) : comparison :=
  let c := compare_keys (key self x) (key self y) in
  if reverse self then CompOpp c else c.

(** [x] may sit above [y] in the heap, and so comes after it in the output:
    [key x >= key y] for a max-heap, [key x <= key y] when reversed. *)
Definition dominates (rev : bool) (kf : A → K) (x y : A) : Prop :=
  if rev then gt (kf x) (kf y) = false else gt (kf y) (kf x) = false.

(** Node [j] dominates its children inside a heap of size [n]. *)
Definition node_ok (R : A → A → Prop) (n : nat) (l : list A) (j : nat) : Prop :=
  ∀ c x y, c = 2 * j + 1 ∨ c = 2 * j + 2 → c < n →
           l !! j = Some x → l !! c = Some y → R x y.

(** The heap property at every node from [lo] on. *)
Definition heap_from (R : A → A → Prop) (n : nat) (l : list A) (lo : nat) : Prop :=
  ∀ j, lo ≤ j → node_ok R n l j.

(** The heap property from [lo] on with a hole at [i]: every other node is
    fine, and the parent of [i] dominates the children of [i]. *)
Definition heap_except (R : A → A → Prop) (n : nat) (l : list A) (lo i : nat) : Prop :=
  (∀ j, lo ≤ j → j ≠ i → node_ok R n l j) ∧
  (∀ p c x y, lo ≤ p → i = 2 * p + 1 ∨ i = 2 * p + 2 →
              c = 2 * i + 1 ∨ c = 2 * i + 2 → c < n →
              l !! p = Some x → l !! c = Some y → R x y).

(** From index [m] on, each element is dominated by its successor. *)
Definition sorted_from (R : A → A → Prop) (l : list A) (m : nat) : Prop :=
  ∀ j x y, m ≤ j → l !! j = Some x → l !! (S j) = Some y → R y x.

(** The element at [m], if any, dominates everything before it. *)
Definition bounded_by (R : A → A → Prop) (l : list A) (m : nat) : Prop :=
  ∀ j x y, j < m → l !! j = Some x → l !! m = Some y → R y x.

(** The attributes no method assigns after construction. *)
Definition untouched (self self' : HeapSort) : Prop :=
  original_data self' = original_data self ∧
  reverse self' = reverse self ∧
  key self' = key self.

(** A computation that leaves them alone, whether it returns or raises. *)
Definition keeps {X} (m : M X) : Prop := ∀ self, untouched self (m self).2.

(** Public calls on an instance, and the object after a sequence of them;
    a call that raises leaves the object as it was at that moment. *)
Inductive call : Type :=
  | CallSort (t0 t1 : timestamp)
  | CallAnalyze.

Definition invoke (depth : nat) (c : call) (self : HeapSort) : HeapSort :=
  match c with
  | CallSort t0 t1 => (sort depth t0 t1 self).2
  | CallAnalyze => (analyze self).2
  end.

Definition run (depth : nat) (calls : list call) (self : HeapSort) : HeapSort :=
  foldl (λ s c, invoke depth c s) self calls.

(** What a run of the heap code may change: nothing but the first [n]
    items of [data] (permuted), the counters and the log, which receives
    one snapshot per counted swap and [k] more. *)
Record effect (n k : nat) (self self' : HeapSort) : Prop := {
  eff_original : original_data self' = original_data self;
  eff_reverse : reverse self' = reverse self;
  eff_key : key self' = key self;
  eff_time : execution_time self' = execution_time self;
  eff_length : length (data self') = length (data self);
  eff_take : take n (data self') ≡ₚ take n (data self);
  eff_drop : drop n (data self') = drop n (data self);
  eff_comparisons : comparisons self ≤ comparisons self';
  eff_swaps : swaps self ≤ swaps self';
  eff_count : length (steps self') + swaps self =
              length (steps self) + swaps self' + k;
  eff_log : (steps self' = steps self ∧ data self' = data self) ∨
            last (steps self') = Some (data self')
}.

(** ** Plotting and the performance sweep *)

(** [l[i]] for a Python integer [i]: negative indices count from the end. *)
Definition py_index {X} (l : list X) (i : Z) : option X :=
  if bool_decide (0 ≤ i)%Z then l !! Z.to_nat i
  else if bool_decide (- Z.of_nat (length l) ≤ i)%Z
       then l !! Z.to_nat (Z.of_nat (length l) + i)
       else None.

(** The calls made on [matplotlib.pyplot], with their arguments. *)
Inductive plt_call : Type :=
  | plt_figure (width height : nat)
  | plt_bar (x : list nat) (height : list A)
  | plt_plot (x : list nat) (y : list pyval)
  | plt_title (label : string)
  | plt_xlabel (label : string)
  | plt_ylabel (label : string)
  | plt_show.

(** [HeapSort.visualize]: the outcome and the [plt] calls made, in order.
    It assigns no attribute. *)
Definition visualize (step : option Z) (self : HeapSort)
    : outcome unit * list plt_call :=
  let opened := [plt_figure 10 6] in
  let labels := [plt_xlabel "Индекс"; plt_ylabel "Значение"; plt_show] in
  let final :=
    (Ok tt, opened ++ [plt_bar (seq 0 (length (data self))) (data self);
                       plt_title "Отсортированный массив"] ++ labels) in
  match step with
  | Some st =>
      if bool_decide (st < Z.of_nat (length (steps self)))%Z then
        match py_index (steps self) st with
        | Some snap =>
            (Ok tt, opened ++ [plt_bar (seq 0 (length snap)) snap;
                               plt_title ("Шаг сортировки: " +:+ pretty st)]
                           ++ labels)
        | None => (Raise IndexError, opened)
        end
      else final
  | None => final
  end.

(** [d[k]] on the dictionary of [analyze]; [None] stands for [KeyError]. *)
Fixpoint dict_getitem (d : list (string * pyval)) (k : string) : option pyval :=
  match d with
  | [] => None
  | (k', v) :: d' => if decide (k' = k) then Some v else dict_getitem d' k
  end.

(** Formatting of floats is left to [format_float spec t], which stands
    for [format(t, spec)]. *)
Variable format_float : string → timestamp → string.

Definition format_value (spec : string) (v : pyval) : string :=
  match v with
  | VInt n => if decide (spec = ".6f"%string)
              then pretty n +:+ ".000000" else pretty n
  | VFloat t => format_float spec t
  end.

(** What [test_performance] prints and plots. *)
Inductive io_call : Type :=
  | io_print (line : string)
  | io_plt (c : plt_call).

Inductive harness_outcome : Type :=
  | Finished
  | SorterRaised (e : exn)
  | KeyError (k : string).

(** The [for size in data_sizes] loop of [test_performance]. The [i]-th
    value of [random.randint(0, 1000)] is [rnd i] and the [i]-th reading
    of [time.time()] is [clk i]; [draws] and [ticks] count the values
    consumed so far. *)
Fixpoint performance_loop (depth : nat) (dflt : A → K)
    (rnd : nat → A) (clk : nat → timestamp)
    (data_sizes : list nat) (draws ticks : nat)
    (results : list (list (string * pyval))) (out : list io_call)
    : harness_outcome * list (list (string * pyval)) * list io_call :=
  match data_sizes with
  | [] => (Finished, results, out)
  | size :: rest =>
      let input := rnd <$> seq draws size in
      let sorter := __init__ dflt input false None in
      match sort depth (clk ticks) (clk (S ticks)) sorter with
      | (Raise e, _) => (SorterRaised e, results, out)
      | (Ok _, sorter) =>
      match analyze sorter with
      | (Raise e, _) => (SorterRaised e, results, out)
      | (Ok stats, _) =>
      let results := results ++ [stats] in
      let out := out ++ [io_print ("Размер данных: " +:+ pretty size)] in
      match dict_getitem stats "comparisons" with
      | None => (KeyError "comparisons", results, out)
      | Some v =>
      let out := out ++ [io_print ("Сравнения: " +:+ format_value "" v)] in
      match dict_getitem stats "swaps" with
      | None => (KeyError "swaps", results, out)
      | Some v =>
      let out := out ++ [io_print ("Обмены: " +:+ format_value "" v)] in
      match dict_getitem stats "time" with
      | None => (KeyError "time", results, out)
      | Some v =>
      let out := out ++ [io_print ("Время: " +:+ format_value ".6f" v +:+ " сек");
                         io_print "----------------------------------"] in
      performance_loop depth dflt rnd clk rest (draws + size) (S (S ticks))
                       results out
      end end end end end
  end.

(** [test_performance]: the loop, then the plot of the times. *)
Definition test_performance (depth : nat) (dflt : A → K)
    (rnd : nat → A) (clk : nat → timestamp) (data_sizes : list nat)
    : harness_outcome * list io_call :=
  match performance_loop depth dflt rnd clk data_sizes 0 0 [] [] with
  | (Finished, results, out) =>
      match mapM (λ r, dict_getitem r "time") results with
      | None => (KeyError "time", out)
      | Some times =>
          (Finished,
           out ++ (io_plt <$> [plt_plot data_sizes times;
                               plt_xlabel "Размер данных";
                               plt_ylabel "Время (сек)";
                               plt_title "Производительность пирамидальной сортировки";
                               plt_show]))
      end
  | (failure, _, out) => (failure, out)
  end.

(** The differences of consecutive pairs of clock readings from [ticks]
    on, [n] of them. *)
Fixpoint elapsed_pairs (clk : nat → timestamp) (n ticks : nat) : list pyval :=
  match n with
  | 0 => []
  | S n' => VFloat (elapsed (clk (S ticks)) (clk ticks))
            :: elapsed_pairs clk n' (S (S ticks))
  end.

(** ** Vocabulary of the further properties *)

(** What a method may do to the instrumentation: append to the log, raise
    the counters, keep the length of the working sequence. *)
Definition grows (self self' : HeapSort) : Prop :=
  steps self `prefix_of` steps self' ∧
  comparisons self ≤ comparisons self' ∧
  swaps self ≤ swaps self' ∧
  length (data self') = length (data self).

(** A computation that does no more than that, returning or raising. *)
Definition monotone {X} (m : M X) : Prop := ∀ self, grows self (m self).2.


(** Each snapshot of [log] arises from the one before it, the first from
    [start], by exchanging two items. *)
Fixpoint exchanges (start : list A) (log : list (list A)) : Prop :=
  match log with
  | [] => True
  | snap :: rest =>
      (∃ i j, i < length start ∧ j < length start ∧
              snap = swap_items i j start) ∧
      exchanges snap rest
  end.

(** The log of [self'] continues that of [self] by such snapshots, the
    last of which is the working sequence of [self']. *)
Definition traced (self self' : HeapSort) : Prop :=
  ∃ ext, steps self' = steps self ++ ext ∧
         exchanges (data self) ext ∧
         data self' = default (data self) (last ext).

(** ** Lists with two items exchanged *)

Lemma swap_items_length i j (l : list A) :
  length (swap_items i j l) = length l.
Proof.
  unfold swap_items. destruct (l !! j), (l !! i); try done.
  by rewrite !length_insert.
Qed.

Lemma swap_items_perm i j (l : list A) : swap_items i j l ≡ₚ l.
Proof.
  unfold swap_items.
  destruct (l !! j) as [x|] eqn:Hj, (l !! i) as [y|] eqn:Hi; try done.
  by apply Permutation_insert_swap.
Qed.

Lemma swap_items_lookup i j k (l : list A) :
  i < length l → j < length l →
  swap_items i j l !! k =
    if decide (k = j) then l !! i else if decide (k = i) then l !! j else l !! k.
Proof.
  intros Hi Hj. unfold swap_items.
  destruct (lookup_lt_is_Some_2 l j Hj) as [x Hx].
  destruct (lookup_lt_is_Some_2 l i Hi) as [y Hy].
  rewrite Hx, Hy.
  destruct (decide (k = j)) as [->|Hkj].
  - rewrite list_lookup_insert_eq; [done | by rewrite length_insert].
  - rewrite list_lookup_insert_ne by done.
    destruct (decide (k = i)) as [->|Hki].
    + by rewrite list_lookup_insert_eq.
    + by rewrite list_lookup_insert_ne.
Qed.

Lemma swap_items_take n i j (l : list A) :
  i < n → j < n → take n (swap_items i j l) = swap_items i j (take n l).
Proof.
  intros Hi Hj. unfold swap_items.
  rewrite !lookup_take_lt by done.
  destruct (l !! j), (l !! i); try done.
  by rewrite !take_insert_lt.
Qed.

Lemma swap_items_drop n i j (l : list A) :
  i < n → j < n → drop n (swap_items i j l) = drop n l.
Proof.
  intros Hi Hj. unfold swap_items.
  destruct (l !! j), (l !! i); try done.
  by rewrite !drop_insert_lt.
Qed.

Ltac run_method Hlk :=
  repeat first
    [ progress cbn -[Nat.mul Nat.add Nat.div]
    | rewrite length_insert
    | match goal with
      | H : ?l !! ?j = Some _ |- context [?l !! ?j] => rewrite H
      | |- context [data ?s !! ?j] =>
          let x := fresh "x" in let Hx := fresh "Hx" in
          destruct (Hlk j ltac:(lia)) as [x Hx]; rewrite Hx
      | |- context [xorb ?a ?b] => destruct (xorb a b) eqn:?
      | |- context [decide ?P] => destruct (decide P); try lia
      end ].

Lemma _heapify_step depth n i self :
  n ≤ length (data self) →
  _heapify depth n i self =
    let c := select self n i in
    if decide (c ≠ i) then
      match depth with
      | 0 => (Raise RecursionError, swapped self n i c)
      | S depth' => _heapify depth' n c (swapped self n i c)
      end
    else (Ok tt, set_comparisons (λ k, k + children_in n i) self).
Proof.
  intros Hn.
  assert (Hlk : ∀ j, j < n → is_Some (data self !! j)).
  { intros j Hj. apply lookup_lt_is_Some. lia. }
  unfold select, consider, prefers, swapped, children_in, swap_items.
  destruct depth; cbn -[Nat.mul Nat.add];
  unfold mbind, M_bind, bind, update, getitem, attr, setitem, mret, M_ret, ret, raise.
  all: run_method Hlk.
  all: destruct self as [od d r kf cmps sw st et]; cbn -[Nat.mul Nat.add] in *;
    unfold set_steps, set_data, set_swaps, set_comparisons; cbn -[Nat.mul Nat.add];
    repeat match goal with
           | H : ?l !! ?j = Some _ |- context [?l !! ?j] => rewrite H
           end;
    do 2 f_equal; lia.
Qed.

(** ** The index chosen by [_heapify] *)

Lemma select_cases self n i :
  select self n i = i ∨
  ((select self n i = 2 * i + 1 ∨ select self n i = 2 * i + 2) ∧
   select self n i < n).
Proof.
  unfold select, consider.
  repeat (destruct (decide _)); repeat (destruct (prefers _ _ _)); lia.
Qed.

Lemma swapped_length self n i c :
  length (data (swapped self n i c)) = length (data self).
Proof. cbn. apply swap_items_length. Qed.

(** ** Termination of [_heapify] *)

Lemma _heapify_total depth : ∀ n i self,
  n ≤ length (data self) →
  n < (i + 1) * 2 ^ S depth →
  ∃ self', _heapify depth n i self = (Ok tt, self').
Proof.
  induction depth as [|d IH]; intros n i self Hn Hd;
    rewrite _heapify_step by done; cbn zeta;
    destruct (decide (select self n i ≠ i)) as [Hc|Hc]; eauto;
    destruct (select_cases self n i) as [?|[Hch Hlt]]; try done.
  - cbn in Hd. lia.
  - apply IH; [by rewrite swapped_length|].
    rewrite Nat.pow_succ_r' in Hd. nia.
Qed.

(** ** What the heap code leaves alone *)

Lemma effect_refl n self : effect n 0 self self.
Proof. split; auto with lia. Qed.

Lemma effect_trans n k1 k2 s1 s2 s3 :
  effect n k1 s1 s2 → effect n k2 s2 s3 → effect n (k1 + k2) s1 s3.
Proof.
  intros H1 H2.
  pose proof (eff_log _ _ _ _ H1) as Hl1.
  pose proof (eff_log _ _ _ _ H2) as Hl2.
  pose proof (eff_take _ _ _ _ H1) as Ht1.
  pose proof (eff_take _ _ _ _ H2) as Ht2.
  destruct H1, H2. split; try congruence; try lia.
  - by rewrite Ht2.
  - destruct Hl2 as [[Hs Hd]|Hl]; [|by right].
    destruct Hl1 as [[Hs' Hd']|Hl']; [left; split|right]; congruence.
Qed.

Lemma effect_weaken n n' k self self' :
  n ≤ n' → effect n k self self' → effect n' k self self'.
Proof.
  intros Hn H.
  pose proof (eff_take _ _ _ _ H) as Ht.
  pose proof (eff_drop _ _ _ _ H) as Hd.
  destruct H. split; try done.
  - replace n' with (n + (n' - n)) by lia.
    by rewrite <-!take_take_drop, Ht, Hd.
  - replace n' with (n + (n' - n)) by lia.
    by rewrite <-!drop_drop, Hd.
Qed.

Lemma effect_perm n k self self' :
  effect n k self self' → data self' ≡ₚ data self.
Proof.
  intros H.
  rewrite <-(take_drop n (data self')), <-(take_drop n (data self)).
  by rewrite (eff_take _ _ _ _ H), (eff_drop _ _ _ _ H).
Qed.

Lemma effect_lookup_ge n k self self' j :
  effect n k self self' → n ≤ j → data self' !! j = data self !! j.
Proof.
  intros H Hj. replace j with (n + (j - n)) by lia.
  by rewrite <-!lookup_drop, (eff_drop _ _ _ _ H).
Qed.

Lemma effect_lookup_lt n k self self' j x :
  effect n k self self' → j < n → data self' !! j = Some x →
  ∃ j', j' < n ∧ data self !! j' = Some x.
Proof.
  intros H Hj Hx.
  assert (Hin : x ∈ take n (data self')).
  { apply list_elem_of_lookup. exists j. by rewrite lookup_take_lt. }
  rewrite (eff_take _ _ _ _ H) in Hin. apply list_elem_of_lookup in Hin as [j' Hj'].
  apply lookup_take_Some in Hj' as [??]. eauto.
Qed.

Lemma effect_counted n self k :
  effect n 0 self (set_comparisons (λ c, c + k) self).
Proof. split; cbn; auto with lia. Qed.

Lemma effect_swapped n i c self :
  i < n → c < n → effect n 0 self (swapped self n i c).
Proof.
  intros Hi Hc. split; cbn; try done; try lia.
  - apply swap_items_length.
  - by rewrite swap_items_take, swap_items_perm.
  - by rewrite swap_items_drop.
  - rewrite length_app. cbn. lia.
  - right. apply last_snoc.
Qed.

Lemma effect_extracted n i self :
  i < n → effect n 1 self (extracted self i).
Proof.
  intros Hi. split; cbn; try done; try lia.
  - apply swap_items_length.
  - by rewrite swap_items_take, swap_items_perm by lia.
  - by rewrite swap_items_drop by lia.
  - rewrite length_app. cbn. lia.
  - right. apply last_snoc.
Qed.

Lemma _heapify_effect depth : ∀ n i self self',
  n ≤ length (data self) → i < n →
  _heapify depth n i self = (Ok tt, self') →
  effect n 0 self self'.
Proof.
  induction depth as [|d IH]; intros n i self self' Hn Hi;
    rewrite _heapify_step by done; cbn zeta;
    destruct (decide (select self n i ≠ i)) as [Hc|Hc]; intros Heq;
    try discriminate;
    try (injection Heq as <-; apply effect_counted).
  destruct (select_cases self n i) as [?|[Hch Hlt]]; [done|].
  apply (effect_trans n 0 0 self (swapped self n i (select self n i)) self').
  - by apply effect_swapped.
  - eapply IH; [by rewrite swapped_length | | done]. done.
Qed.

(** ** Loops over descending ranges *)

Lemma range_desc_empty hi lo : hi ≤ lo → range_desc hi lo = [].
Proof. intros H. unfold range_desc. by replace (hi - lo) with 0 by lia. Qed.

Lemma range_desc_S hi lo :
  lo ≤ hi → range_desc (S hi) lo = hi :: range_desc hi lo.
Proof.
  intros H. unfold range_desc.
  replace (S hi - lo) with (S (hi - lo)) by lia.
  rewrite seq_S, rev_app_distr. cbn. f_equal. lia.
Qed.

Lemma for_each_cons i l body self :
  for_each (i :: l) body self =
    match body i self with
    | (Ok _, self') => for_each l body self'
    | (Raise e, self') => (Raise e, self')
    end.
Proof. reflexivity. Qed.

(** A loop [for i in range(hi-1, lo-1, -1)] whose body always returns and
    takes the invariant from [S i] to [i] returns and takes it from [hi]
    to [lo]. *)
Lemma for_each_desc (I : nat → HeapSort → Prop) body lo : ∀ hi self,
  lo ≤ hi → I hi self →
  (∀ i s, lo ≤ i < hi → I (S i) s → ∃ s', body i s = (Ok tt, s') ∧ I i s') →
  ∃ self', for_each (range_desc hi lo) body self = (Ok tt, self') ∧ I lo self'.
Proof.
  induction hi as [|hi IH]; intros self Hlo Hinit Hbody.
  - assert (lo = 0) as -> by lia. eauto.
  - destruct (decide (lo = S hi)) as [->|Hne].
    { rewrite range_desc_empty by lia. eauto. }
    rewrite range_desc_S, for_each_cons by lia.
    destruct (Hbody hi self ltac:(lia) Hinit) as (s' & -> & Hs').
    apply IH; [lia | done |].
    intros i s Hi. apply Hbody. lia.
Qed.

Lemma extract_max_step depth i self :
  0 < i < length (data self) →
  extract_max depth i self = _heapify depth i 0 (extracted self i).
Proof.
  intros Hi.
  assert (Hlk : ∀ j, j ≤ i → is_Some (data self !! j)).
  { intros j Hj. apply lookup_lt_is_Some. lia. }
  unfold extract_max, extracted, swap_items.
  unfold mbind, M_bind, bind, update, getitem, attr, setitem, mret, M_ret, ret, raise.
  run_method Hlk.
  f_equal.
  destruct self as [od d r kf cmps sw st et]; cbn in *.
  unfold set_steps, set_data; cbn.
  repeat match goal with
         | H : ?l !! ?j = Some _ |- context [?l !! ?j] => rewrite H
         end.
  done.
Qed.

Lemma sort_unfold depth t0 t1 self :
  sort depth t0 t1 self =
    match _build_heap depth self with
    | (Ok _, s1) =>
        match for_each (range_desc (length (data s1)) 1) (extract_max depth) s1 with
        | (Ok _, s2) => (Ok (data s2), set_execution_time (elapsed t1 t0) s2)
        | (Raise e, s2) => (Raise e, s2)
        end
    | (Raise e, s1) => (Raise e, s1)
    end.
Proof.
  unfold sort, mbind, M_bind, bind, attr, update.
  destruct (_build_heap depth self) as [[[]|e] s1]; [|done].
  by destruct (for_each _ _ s1) as [[[]|e] s2].
Qed.

(** A budget of [log2_up N] nested calls is enough inside [N] items. *)
Lemma depth_enough N n i depth :
  n ≤ N → Nat.log2_up N ≤ depth → n < (i + 1) * 2 ^ S depth.
Proof.
  intros Hn Hd.
  pose proof (Nat.pow_nonzero 2 depth ltac:(lia)) as Hpos.
  assert (N ≤ 2 ^ depth).
  { destruct (decide (N ≤ 1)) as [HN|HN].
    - lia.
    - destruct (Nat.log2_up_spec N ltac:(lia)) as [_ Hup].
      etrans; [exact Hup|]. apply Nat.pow_le_mono_r; lia. }
  rewrite Nat.pow_succ_r'. nia.
Qed.

Lemma _build_heap_effect depth self :
  Nat.log2_up (length (data self)) ≤ depth →
  ∃ self', _build_heap depth self = (Ok tt, self') ∧
           effect (length (data self)) 0 self self'.
Proof.
  intros Hd. unfold _build_heap, mbind, M_bind, bind, attr.
  set (n := length (data self)) in *.
  pose proof (Nat.div_mod_eq n 2) as Hdiv.
  apply (for_each_desc (λ _ s, effect n 0 self s)); [lia | apply effect_refl |].
  intros i s Hi Hs.
  assert (Hlen : n ≤ length (data s)) by (rewrite (eff_length _ _ _ _ Hs); done).
  destruct (_heapify_total depth n i s Hlen) as [s' Hs'].
  { by apply depth_enough with n. }
  exists s'. split; [done|].
  apply (effect_trans n 0 0 self s s'); [done|].
  apply (_heapify_effect depth n i); auto. lia.
Qed.

Lemma extraction_effect depth self :
  Nat.log2_up (length (data self)) ≤ depth →
  ∃ self', for_each (range_desc (length (data self)) 1) (extract_max depth) self
             = (Ok tt, self') ∧
           effect (length (data self)) (length (data self) - 1) self self'.
Proof.
  intros Hd. set (n := length (data self)) in *.
  destruct (decide (n = 0)) as [Hn|Hn].
  { rewrite range_desc_empty by lia. exists self. split; [done|].
    rewrite Hn. apply effect_refl. }
  apply (for_each_desc (λ m s, effect n (n - m) self s)); [lia | |].
  { rewrite Nat.sub_diag. apply effect_refl. }
  intros i s Hi Hs.
  assert (Hlen : length (data s) = n) by apply (eff_length _ _ _ _ Hs).
  rewrite extract_max_step by lia.
  assert (Hlen' : i ≤ length (data (extracted s i))).
  { cbn. rewrite swap_items_length. lia. }
  destruct (_heapify_total depth i 0 (extracted s i) Hlen') as [s' Hs'].
  { apply depth_enough with n; [lia | done]. }
  exists s'. split; [done|].
  replace (n - i) with (n - S i + (1 + 0)) by lia.
  apply effect_trans with s; [done|].
  apply effect_trans with (extracted s i).
  - apply effect_extracted. lia.
  - apply effect_weaken with i; [lia|].
    apply (_heapify_effect depth i 0); auto. lia.
Qed.

Lemma sort_effect depth t0 t1 self :
  Nat.log2_up (length (data self)) ≤ depth →
  ∃ s, sort depth t0 t1 self =
         (Ok (data s), set_execution_time (elapsed t1 t0) s) ∧
       effect (length (data self)) (length (data self) - 1) self s.
Proof.
  intros Hd. rewrite sort_unfold.
  destruct (_build_heap_effect depth self Hd) as (s1 & -> & H1).
  pose proof (eff_length _ _ _ _ H1) as Hlen.
  destruct (extraction_effect depth s1) as (s2 & -> & H2); [by rewrite Hlen|].
  exists s2. split; [done|]. rewrite Hlen in H2.
  by apply (effect_trans _ 0 _ self s1 s2).
Qed.

(** ** Heaps over an arbitrary preorder *)

Section Heap.

Variable R : A → A → Prop.
Hypothesis R_refl : ∀ x, R x x.
Hypothesis R_trans : ∀ x y z, R x y → R y z → R x z.

Lemma heap_except_done n l lo i :
  heap_except R n l lo i → node_ok R n l i → heap_from R n l lo.
Proof.
  intros [Hothers _] Hi j Hj.
  destruct (decide (j = i)) as [->|Hne]; auto.
Qed.

Lemma heap_from_except n l lo :
  heap_from R n l (S lo) → heap_except R n l lo lo.
Proof.
  intros Hh. split.
  - intros j Hj Hne. apply Hh. lia.
  - intros p c x y Hp Hpar. lia.
Qed.

(** Moving the best child [c] of [i] up moves the hole down to [c]. *)
Lemma heap_except_swap n l lo i c :
  n ≤ length l → lo ≤ i → c = 2 * i + 1 ∨ c = 2 * i + 2 → c < n →
  (∀ d x y, d = i ∨ ((d = 2 * i + 1 ∨ d = 2 * i + 2) ∧ d < n) →
            l !! c = Some x → l !! d = Some y → R x y) →
  heap_except R n l lo i →
  heap_except R n (swap_items i c l) lo c.
Proof.
  intros Hn Hlo Hc Hcn Hbest [Hothers Hpar].
  assert (Hlk : ∀ k, swap_items i c l !! k =
    if decide (k = c) then l !! i else if decide (k = i) then l !! c else l !! k).
  { intros k. apply swap_items_lookup; lia. }
  split.
  - intros j Hj Hjc d x y Hd Hdn. rewrite !Hlk.
    destruct (decide (j = c)) as [|_]; [done|].
    destruct (decide (j = i)) as [->|Hji].
    + destruct (decide (d = c)) as [->|Hdc].
      * intros Hx Hy. apply (Hbest i x y); auto.
      * destruct (decide (d = i)) as [|_]; [lia|].
        intros Hx Hy. apply (Hbest d x y); auto.
    + destruct (decide (d = c)) as [|_]; [lia|].
      destruct (decide (d = i)) as [->|Hdi].
      * intros Hx Hy. apply (Hpar j c x y); auto.
      * intros Hx Hy. apply (Hothers j Hj Hji d x y); auto.
  - intros p d x y Hp Hcp Hd Hdn. rewrite !Hlk.
    assert (p = i) as -> by lia.
    destruct (decide (i = c)) as [|_]; [lia|].
    destruct (decide (i = i)) as [_|]; [|done].
    destruct (decide (d = c)) as [|_]; [lia|].
    destruct (decide (d = i)) as [|_]; [lia|].
    intros Hx Hy. apply (Hothers c ltac:(lia) ltac:(lia) d x y); auto.
Qed.

(** The root of a heap dominates every item of the heap. *)
Lemma heap_root n l :
  n ≤ length l → heap_from R n l 0 →
  ∀ j x y, j < n → l !! 0 = Some x → l !! j = Some y → R x y.
Proof.
  intros Hn Hh j. induction (lt_wf j) as [j _ IH].
  intros x y Hj Hx Hy. destruct j as [|j].
  - rewrite Hx in Hy. injection Hy as ->. apply R_refl.
  - pose proof (Nat.div_mod_eq j 2) as Hdiv.
    pose proof (Nat.mod_upper_bound j 2 ltac:(lia)) as Hmod.
    destruct (lookup_lt_is_Some_2 l (j / 2) ltac:(lia)) as [z Hz].
    apply R_trans with z.
    + apply (IH (j / 2)); auto; lia.
    + apply (Hh (j / 2) ltac:(lia) (S j) z y); auto; lia.
Qed.

End Heap.

(** ** The ordering policy *)

Lemma effective_compare_prefers_ascending self c p x y :
  reverse self = false →
  data self !! c = Some x → data self !! p = Some y →
  prefers self c p = true ↔ effective_compare self x y = Gt.
Proof.
  intros Hr Hx Hy. unfold prefers, effective_compare, compare_keys.
  rewrite Hx, Hy, Hr.
  destruct (gt (key self x) (key self y)), (gt (key self y) (key self x));
    cbn; split; congruence.
Qed.

Lemma effective_compare_prefers_descending self c p x y :
  reverse self = true →
  data self !! c = Some x → data self !! p = Some y →
  prefers self c p = true ↔ effective_compare self x y ≠ Lt.
Proof.
  intros Hr Hx Hy. unfold prefers, effective_compare, compare_keys.
  rewrite Hx, Hy, Hr.
  destruct (gt (key self x) (key self y)), (gt (key self y) (key self x));
    cbn; split; congruence.
Qed.


Section Order.

(** Python's [>] on the keys is a strict weak order. *)
Hypothesis gt_asym : ∀ a b, gt a b = true → gt b a = false.
Hypothesis gt_negtrans : ∀ a b c, gt a b = false → gt b c = false → gt a c = false.

Lemma gt_irrefl a : gt a a = false.
Proof. destruct (gt a a) eqn:E; [by rewrite (gt_asym _ _ E) in E | done]. Qed.

Lemma dominates_refl rev kf x : dominates rev kf x x.
Proof. unfold dominates. destruct rev; apply gt_irrefl. Qed.

Lemma dominates_trans rev kf x y z :
  dominates rev kf x y → dominates rev kf y z → dominates rev kf x z.
Proof. unfold dominates. destruct rev; eauto. Qed.

Lemma prefers_true self c p x y :
  data self !! c = Some x → data self !! p = Some y →
  prefers self c p = true → dominates (reverse self) (key self) x y.
Proof.
  unfold prefers, dominates. intros -> ->.
  destruct (reverse self), (gt (key self x) (key self y)) eqn:E; cbn; auto; done.
Qed.

Lemma prefers_false self c p x y :
  data self !! c = Some x → data self !! p = Some y →
  prefers self c p = false → dominates (reverse self) (key self) y x.
Proof.
  unfold prefers, dominates. intros -> ->.
  destruct (reverse self), (gt (key self x) (key self y)) eqn:E; cbn; auto; done.
Qed.

Lemma consider_best self n c p :
  (consider self n c p = p ∧
   (c < n → ∀ x y, data self !! p = Some x → data self !! c = Some y →
              dominates (reverse self) (key self) x y)) ∨
  (consider self n c p = c ∧ c < n ∧
   ∀ x y, data self !! c = Some x → data self !! p = Some y →
          dominates (reverse self) (key self) x y).
Proof.
  unfold consider. destruct (decide (c < n)) as [Hc|Hc]; [|left; split; [done|lia]].
  destruct (prefers self c p) eqn:E.
  - right. eauto using prefers_true.
  - left. eauto using prefers_false.
Qed.

(** The item at the index that [_heapify n i] selects dominates the item
    at [i] and both children of [i] inside the heap. *)
Lemma select_best self n i d x y :
  n ≤ length (data self) →
  d = i ∨ ((d = 2 * i + 1 ∨ d = 2 * i + 2) ∧ d < n) →
  data self !! select self n i = Some x → data self !! d = Some y →
  dominates (reverse self) (key self) x y.
Proof.
  intros Hn Hd. unfold select.
  assert (Hlk : ∀ j, j < n → is_Some (data self !! j)).
  { intros j Hj. apply lookup_lt_is_Some. lia. }
  destruct (consider_best self n (2 * i + 1) i) as [[E1 H1]|[E1 [L1 H1]]];
  destruct (consider_best self n (2 * i + 2) (consider self n (2 * i + 1) i))
    as [[E2 H2]|[E2 [L2 H2]]];
  rewrite E2, ?E1; rewrite ?E1 in H2; intros Hx Hy;
  destruct Hd as [-> | [[-> | ->] Hdn]];
  try (rewrite Hx in Hy; injection Hy as ->; apply dominates_refl);
  eauto.
  - destruct (Hlk i ltac:(lia)) as [z Hz].
    apply dominates_trans with z; eauto.
  - destruct (Hlk (2 * i + 1) ltac:(lia)) as [z Hz].
    apply dominates_trans with z; eauto.
Qed.

(** ** [_heapify] restores the heap property *)

Lemma _heapify_heap depth : ∀ n i lo self self',
  n ≤ length (data self) → lo ≤ i →
  _heapify depth n i self = (Ok tt, self') →
  heap_except (dominates (reverse self) (key self)) n (data self) lo i →
  heap_from (dominates (reverse self) (key self)) n (data self') lo.
Proof.
  induction depth as [|d IH]; intros n i lo self self' Hn Hlo;
    rewrite _heapify_step by done; cbn zeta;
    destruct (decide (select self n i ≠ i)) as [Hc|Hc]; intros Heq Hex;
    try discriminate.
  1,3: injection Heq as <-; cbn;
    apply dec_stable in Hc;
    apply heap_except_done with i; [done|];
    intros c x y Hch Hcn Hx Hy;
    apply (select_best self n i c x y); auto; by rewrite Hc.
  destruct (select_cases self n i) as [?|[Hch Hlt]]; [done|].
  apply (IH n (select self n i) lo (swapped self n i (select self n i)));
    [by rewrite swapped_length | lia | done |].
  cbn. apply heap_except_swap; try done.
  intros c x y Hc' Hx Hy. by apply (select_best self n i c x y).
Qed.


(** ** [sort] builds a heap and then extracts it in order *)

Lemma _build_heap_heap depth self :
  Nat.log2_up (length (data self)) ≤ depth →
  ∃ self', _build_heap depth self = (Ok tt, self') ∧
           effect (length (data self)) 0 self self' ∧
           heap_from (dominates (reverse self) (key self))
                     (length (data self)) (data self') 0.
Proof.
  intros Hd. unfold _build_heap, mbind, M_bind, bind, attr.
  set (n := length (data self)) in *.
  set (R := dominates (reverse self) (key self)).
  pose proof (Nat.div_mod_eq n 2) as Hdiv.
  pose proof (Nat.mod_upper_bound n 2 ltac:(lia)) as Hmod.
  apply (for_each_desc (λ m s, effect n 0 self s ∧ heap_from R n (data s) m));
    [lia | |].
  { split; [apply effect_refl|]. intros j Hj c x y Hc Hcn. lia. }
  intros i s Hi [Hs Hh].
  assert (Hlen : n ≤ length (data s)) by (rewrite (eff_length _ _ _ _ Hs); done).
  destruct (_heapify_total depth n i s Hlen) as [s' Hs'].
  { by apply depth_enough with n. }
  exists s'. split; [done|]. split.
  - apply (effect_trans n 0 0 self s s'); [done|].
    apply (_heapify_effect depth n i); auto. lia.
  - unfold R. rewrite <-(eff_reverse _ _ _ _ Hs), <-(eff_key _ _ _ _ Hs).
    apply (_heapify_heap depth n i i s s'); auto.
    apply heap_from_except.
    by rewrite (eff_reverse _ _ _ _ Hs), (eff_key _ _ _ _ Hs).
Qed.

Lemma extraction_sorted depth self :
  Nat.log2_up (length (data self)) ≤ depth →
  heap_from (dominates (reverse self) (key self))
            (length (data self)) (data self) 0 →
  ∃ self', for_each (range_desc (length (data self)) 1) (extract_max depth) self
             = (Ok tt, self') ∧
           sorted_from (dominates (reverse self) (key self)) (data self') 0.
Proof.
  intros Hd Hheap. set (n := length (data self)) in *.
  set (R := dominates (reverse self) (key self)) in *.
  destruct (decide (n = 0)) as [Hn|Hn].
  { rewrite range_desc_empty by lia. exists self. split; [done|].
    intros j x y _ Hx. apply lookup_lt_Some in Hx. lia. }
  cut (∃ self', for_each (range_desc n 1) (extract_max depth) self = (Ok tt, self') ∧
         (effect n (n - 1) self self' ∧ heap_from R 1 (data self') 0 ∧
          bounded_by R (data self') 1 ∧ sorted_from R (data self') 1)).
  { intros (s' & Hs' & _ & _ & Hb & Hso). exists s'. split; [done|].
    intros j x y _ Hx Hy. destruct j as [|j]; [|apply (Hso (S j) x y); auto; lia].
    apply (Hb 0 x y); auto. }
  apply (for_each_desc (λ m s, effect n (n - m) self s ∧ heap_from R m (data s) 0 ∧
                               bounded_by R (data s) m ∧ sorted_from R (data s) m));
    [lia | |].
  { rewrite Nat.sub_diag. split; [apply effect_refl|]. split; [done|]. split.
    - intros j x y _ _ Hy. apply lookup_lt_Some in Hy. lia.
    - intros j x y Hj Hx. apply lookup_lt_Some in Hx. lia. }
  intros i s Hi (Hs & Hh & Hb & Hso).
  assert (Hlen : length (data s) = n) by apply (eff_length _ _ _ _ Hs).
  assert (HR : dominates (reverse s) (key s) = R).
  { unfold R. by rewrite (eff_reverse _ _ _ _ Hs), (eff_key _ _ _ _ Hs). }
  rewrite extract_max_step by lia.
  assert (Hlen' : i ≤ length (data (extracted s i))).
  { cbn. rewrite swap_items_length. lia. }
  destruct (_heapify_total depth i 0 (extracted s i) Hlen') as [s' Hs'].
  { apply depth_enough with n; [lia | done]. }
  exists s'. split; [done|].
  assert (He : effect i 0 (extracted s i) s').
  { apply (_heapify_effect depth i 0); auto. lia. }
  assert (Hlk : ∀ k, data (extracted s i) !! k =
    if decide (k = i) then data s !! 0
    else if decide (k = 0) then data s !! i else data s !! k).
  { intros k. cbn. apply swap_items_lookup; lia. }
  assert (Hroot : ∀ j x y, j < S i → data s !! 0 = Some x → data s !! j = Some y → R x y).
  { apply (heap_root R (dominates_refl _ _) (dominates_trans _ _) (S i));
      [lia | done]. }
  split; [|split; [|split]].
  - replace (n - i) with (n - S i + (1 + 0)) by lia.
    apply effect_trans with s; [done|].
    apply effect_trans with (extracted s i); [apply effect_extracted; lia|].
    apply effect_weaken with i; [lia | done].
  - change (heap_from R i (data s') 0). rewrite <-HR.
    apply (_heapify_heap depth i 0 0 (extracted s i) s'); auto.
    cbn [reverse key extracted set_steps set_data]. rewrite HR. split.
    + intros j _ Hj c x y Hc Hci. rewrite !Hlk.
      repeat (destruct (decide _); try lia).
      intros Hx Hy. apply (Hh j ltac:(lia) c x y); auto; lia.
    + intros p c x y _ Hp. lia.
  - intros j x y Hj Hx Hy.
    rewrite (effect_lookup_ge _ _ _ _ _ He), Hlk in Hy by lia.
    destruct (decide (i = i)) as [_|]; [|done].
    destruct (effect_lookup_lt _ _ _ _ _ _ He Hj Hx) as (j' & Hj' & Hx').
    rewrite Hlk in Hx'.
    destruct (decide (j' = i)) as [|_]; [lia|].
    destruct (decide (j' = 0)) as [_|_].
    + apply (Hroot i y x); auto.
    + apply (Hroot j' y x); auto; lia.
  - intros j x y Hj.
    rewrite !(effect_lookup_ge _ _ _ _ _ He), !Hlk by lia.
    destruct (decide (S j = i)) as [|_]; [lia|].
    destruct (decide (S j = 0)) as [|_]; [lia|].
    destruct (decide (j = i)) as [->|Hji].
    + intros Hx Hy. apply (Hb 0 x y); auto; lia.
    + destruct (decide (j = 0)) as [|_]; [lia|].
      intros Hx Hy. apply (Hso j x y); auto; lia.
Qed.

Lemma sort_sorted depth t0 t1 self :
  Nat.log2_up (length (data self)) ≤ depth →
  ∃ s, sort depth t0 t1 self =
         (Ok (data s), set_execution_time (elapsed t1 t0) s) ∧
       effect (length (data self)) (length (data self) - 1) self s ∧
       sorted_from (dominates (reverse self) (key self)) (data s) 0.
Proof.
  intros Hd. rewrite sort_unfold.
  destruct (_build_heap_heap depth self Hd) as (s1 & -> & H1 & Hheap).
  pose proof (eff_length _ _ _ _ H1) as Hlen.
  rewrite <-Hlen, <-(eff_reverse _ _ _ _ H1), <-(eff_key _ _ _ _ H1) in Hheap.
  destruct (extraction_sorted depth s1) as (s2 & Heq & Hsorted);
    [by rewrite Hlen | done |].
  destruct (extraction_effect depth s1) as (s2' & Heq' & H2); [by rewrite Hlen|].
  assert (s2' = s2) as -> by congruence.
  rewrite Heq. exists s2. split; [done|]. split.
  - rewrite Hlen in H2. by apply (effect_trans _ 0 _ self s1 s2).
  - by rewrite <-(eff_reverse _ _ _ _ H1), <-(eff_key _ _ _ _ H1).
Qed.


(** On a tie the test of [_heapify] returns [reverse]. *)
Lemma prefers_tie self c p x y :
  data self !! c = Some x → data self !! p = Some y →
  key self x = key self y → prefers self c p = reverse self.
Proof.
  unfold prefers. intros -> -> ->. rewrite gt_irrefl. by destruct (reverse self).
Qed.

(** With [reverse] set the test holds on a tie: a child inside the heap
    whose key equals that of node [i] is selected. *)
Lemma select_tie_reversed n i self :
  n ≤ length (data self) →
  (∀ x y, data self !! (2 * i + 1) = Some x → data self !! i = Some y →
          key self x = key self y) →
  reverse self = true → 2 * i + 1 < n → select self n i ≠ i.
Proof.
  intros Hn Htie Hr Hl. unfold select, consider.
  destruct (lookup_lt_is_Some_2 (data self) (2 * i + 1) ltac:(lia)) as [x Hx].
  destruct (lookup_lt_is_Some_2 (data self) i ltac:(lia)) as [y Hy].
  destruct (decide (2 * i + 1 < n)); [|done].
  rewrite (prefers_tie self (2 * i + 1) i x y), Hr by auto.
  destruct (decide (2 * i + 2 < n)); [|lia].
  destruct (prefers self (2 * i + 2) (2 * i + 1)); lia.
Qed.


End Order.

(** ** Attributes that no method assigns *)

Lemma untouched_refl self : untouched self self.
Proof. by repeat split. Qed.

Lemma untouched_trans s1 s2 s3 :
  untouched s1 s2 → untouched s2 s3 → untouched s1 s3.
Proof. intros (?&?&?) (?&?&?). repeat split; congruence. Qed.

Lemma keeps_ret {X} (x : X) : keeps (mret x).
Proof. intros self. apply untouched_refl. Qed.

Lemma keeps_raise {X} e : keeps (raise (X:=X) e).
Proof. intros self. apply untouched_refl. Qed.

Lemma keeps_attr {X} (f : HeapSort → X) : keeps (attr f).
Proof. intros self. apply untouched_refl. Qed.

Lemma keeps_getitem i : keeps (getitem i).
Proof.
  intros self. unfold getitem. destruct (data self !! i); apply untouched_refl.
Qed.

Lemma keeps_setitem i x : keeps (setitem i x).
Proof.
  intros self. unfold setitem. destruct (decide _); by repeat split.
Qed.

Lemma keeps_update f : (∀ self, untouched self (f self)) → keeps (update f).
Proof. intros Hf self. apply Hf. Qed.

Lemma keeps_bind {X Y} (m : M X) (f : X → M Y) :
  keeps m → (∀ x, keeps (f x)) → keeps (m ≫= f).
Proof.
  intros Hm Hf self. unfold mbind, M_bind, bind.
  specialize (Hm self). destruct (m self) as [[x|e] s1]; [|done].
  cbn in Hm. specialize (Hf x s1). by apply untouched_trans with s1.
Qed.

Lemma keeps_for_each l body : (∀ i, keeps (body i)) → keeps (for_each l body).
Proof.
  intros Hb. induction l as [|i l IH]; [apply keeps_ret|].
  apply (keeps_bind (body i)); auto.
Qed.

Ltac keeps_step :=
  first
    [ apply keeps_ret | apply keeps_raise | apply keeps_attr
    | apply keeps_getitem | apply keeps_setitem
    | apply keeps_update; intros ?; by repeat split
    | apply keeps_for_each; intros ?
    | apply keeps_bind; [|intros ?]
    | match goal with
      | |- keeps (if ?b then _ else _) => destruct b
      end ].

Lemma keeps_heapify depth : ∀ n i, keeps (_heapify depth n i).
Proof.
  induction depth as [|d IH]; intros n i; cbn [_heapify];
    repeat keeps_step; apply IH.
Qed.

Lemma keeps_build_heap depth : keeps (_build_heap depth).
Proof. unfold _build_heap. repeat keeps_step. apply keeps_heapify. Qed.

Lemma keeps_sort depth t0 t1 : keeps (sort depth t0 t1).
Proof.
  unfold sort. repeat keeps_step;
    first [apply keeps_build_heap | apply keeps_heapify].
Qed.

Lemma analyze_read_only self : (analyze self).2 = self.
Proof.
  unfold analyze, mbind, M_bind, bind, attr, getattr_execution_time.
  by destruct (execution_time self).
Qed.

Lemma untouched_run depth calls : ∀ self, untouched self (run depth calls self).
Proof.
  induction calls as [|c calls IH]; intros self; [apply untouched_refl|].
  apply untouched_trans with (invoke depth c self); [|apply IH].
  destruct c as [t0 t1|]; cbn.
  - apply keeps_sort.
  - rewrite analyze_read_only. apply untouched_refl.
Qed.

(** C9. The stored original sequence equals the caller's input after
    construction, and no sequence of later [sort] and [analyze] calls,
    returning or raising, changes it; the ordering policy is left alone
    as well, so [sort] assigns only the working sequence, the counters,
    the step log and the timing. *)
Theorem original_data_never_mutated dflt input rv k depth calls :
  original_data (__init__ dflt input rv k) = input ∧
  original_data (run depth calls (__init__ dflt input rv k)) = input ∧
  reverse (run depth calls (__init__ dflt input rv k)) = rv ∧
  key (run depth calls (__init__ dflt input rv k)) =
    key (__init__ dflt input rv k).
Proof.
  destruct (untouched_run depth calls (__init__ dflt input rv k)) as (H1 & H2 & H3).
  by rewrite H1, H2, H3.
Qed.

(** ** Termination and depth of [_heapify] *)

(** C8. Inside a heap of [n] items of the working sequence, [_heapify n i]
    returns within a budget of [log2_up n] nested calls; whenever it calls
    itself, it does so on the selected index, which is [2i+1] or [2i+2],
    larger than [i] and below [n]. *)
Theorem _heapify_terminates depth n i self :
  i < n → n ≤ length (data self) → Nat.log2_up n ≤ depth →
  (∃ self', _heapify depth n i self = (Ok tt, self')) ∧
  (select self n i ≠ i →
     (select self n i = 2 * i + 1 ∨ select self n i = 2 * i + 2) ∧
     i < select self n i < n ∧
     ∀ d, _heapify (S d) n i self =
          _heapify d n (select self n i) (swapped self n i (select self n i))).
Proof.
  intros Hi Hn Hd. split.
  - apply _heapify_total; [done|]. by apply depth_enough with n.
  - intros Hsel. destruct (select_cases self n i) as [?|[Hc Hlt]]; [done|].
    split; [done|]. split; [lia|].
    intros d. rewrite _heapify_step by done. cbn zeta.
    by destruct (decide (select self n i ≠ i)).
Qed.

(** ** Counters and the step log *)

(** C10. After one [sort] on a fresh instance of [n] items the log holds
    [swaps + max(n - 1, 0)] snapshots. *)
Theorem steps_are_swaps_plus_extractions dflt input rv k depth t0 t1 :
  Nat.log2_up (length input) ≤ depth →
  ∃ result self',
    sort depth t0 t1 (__init__ dflt input rv k) = (Ok result, self') ∧
    length (steps self') = swaps self' + (length input - 1).
Proof.
  intros Hd.
  destruct (sort_effect depth t0 t1 (__init__ dflt input rv k) Hd)
    as (s & Heq & Heff).
  eexists _, _. split; [exact Heq|].
  pose proof (eff_count _ _ _ _ Heff) as Hc. cbn in *. lia.
Qed.

(** C2, amended. A call of [_heapify] appends exactly as many snapshots
    as it counts swaps. After [sort] on a fresh instance the swap counter
    is at most the length of the log, and the two are equal exactly for
    inputs of at most one item: the loop of [sort] logs one snapshot per
    iteration without counting a swap. *)
Theorem swaps_are_logged :
  (∀ depth n i self,
     i < n → n ≤ length (data self) → Nat.log2_up n ≤ depth →
     ∃ self', _heapify depth n i self = (Ok tt, self') ∧
              length (steps self') + swaps self =
                length (steps self) + swaps self') ∧
  (∀ dflt input rv k depth t0 t1,
     Nat.log2_up (length input) ≤ depth →
     ∃ result self',
       sort depth t0 t1 (__init__ dflt input rv k) = (Ok result, self') ∧
       swaps self' ≤ length (steps self') ∧
       (length (steps self') = swaps self' ↔ length input ≤ 1)).
Proof.
  split.
  - intros depth n i self Hi Hn Hd.
    destruct (_heapify_total depth n i self Hn) as [self' Hs].
    { by apply depth_enough with n. }
    exists self'. split; [done|].
    pose proof (_heapify_effect depth n i self self' Hn Hi Hs) as Heff.
    pose proof (eff_count _ _ _ _ Heff). lia.
  - intros dflt input rv k depth t0 t1 Hd.
    destruct (sort_effect depth t0 t1 (__init__ dflt input rv k) Hd)
      as (s & Heq & Heff).
    eexists _, _. split; [exact Heq|].
    pose proof (eff_count _ _ _ _ Heff) as Hc. cbn in *. lia.
Qed.

(** C7. After [sort] on a fresh instance, a non-empty log ends with the
    list that [sort] returned. *)
Theorem last_step_is_result dflt input rv k depth t0 t1 :
  Nat.log2_up (length input) ≤ depth →
  ∃ result self',
    sort depth t0 t1 (__init__ dflt input rv k) = (Ok result, self') ∧
    result = data self' ∧
    (steps self' ≠ [] → last (steps self') = Some result).
Proof.
  intros Hd.
  destruct (sort_effect depth t0 t1 (__init__ dflt input rv k) Hd)
    as (s & Heq & Heff).
  eexists _, _. split; [exact Heq|]. split; [done|].
  cbn. destruct (eff_log _ _ _ _ Heff) as [[Hs _]|Hl]; [|done].
  cbn in Hs. by rewrite Hs.
Qed.

(** ** Empty and one-item inputs *)

(** C6. Sorting the empty list returns it, and sorting a one-item list
    returns it unchanged, both with no comparison and no swap, whatever the
    policy and the budget. *)
Theorem sort_empty_singleton dflt rv k depth t0 t1 x :
  (∃ self', sort depth t0 t1 (__init__ dflt [] rv k) = (Ok [], self') ∧
            data self' = [] ∧ comparisons self' = 0 ∧ swaps self' = 0) ∧
  (∃ self', sort depth t0 t1 (__init__ dflt [x] rv k) = (Ok [x], self') ∧
            data self' = [x] ∧ comparisons self' = 0 ∧ swaps self' = 0).
Proof. split; eexists; (split; [reflexivity|]); by cbn. Qed.

(** ** [analyze] *)

(** C5. On an instance on which [sort] never ran, however often [analyze]
    ran before, [analyze] raises [AttributeError] and returns no record. *)
Theorem analyze_before_sort_raises dflt input rv k depth m :
  let self := run depth (replicate m CallAnalyze) (__init__ dflt input rv k) in
  analyze self = (Raise AttributeError, self) ∧
  ∀ record self', analyze self ≠ (Ok record, self').
Proof.
  cbn zeta.
  assert (run depth (replicate m CallAnalyze) (__init__ dflt input rv k)
          = __init__ dflt input rv k) as ->.
  { induction m as [|m IH]; [done|]. cbn. by rewrite analyze_read_only. }
  split; [done|]. intros record self'. by cbn.
Qed.

(** C4, amended. Once [sort] has set the timing, [analyze] returns the
    mapping with the keys [data_size], [comparisons], [swaps], [time] and
    [steps], in which [data_size] is the length of the working sequence and
    [steps] the number of entries of the log, and leaves the object as it
    is. *)
Theorem analyze_fields self t :
  execution_time self = Some t →
  analyze self =
    (Ok [ ("data_size"%string, VInt (length (data self)));
          ("comparisons"%string, VInt (comparisons self));
          ("swaps"%string, VInt (swaps self));
          ("time"%string, VFloat t);
          ("steps"%string, VInt (length (steps self))) ],
     self).
Proof.
  intros Ht.
  unfold analyze, mbind, M_bind, bind, attr, getattr_execution_time.
  by rewrite Ht.
Qed.

(** ** The instrumentation only grows *)

Lemma grows_refl self : grows self self.
Proof. by repeat split. Qed.

Lemma grows_trans s1 s2 s3 : grows s1 s2 → grows s2 s3 → grows s1 s3.
Proof.
  intros (?&?&?&?) (?&?&?&?). repeat split; try lia; try congruence.
  by etrans.
Qed.

Lemma monotone_ret {X} (x : X) : monotone (mret x).
Proof. intros self. apply grows_refl. Qed.

Lemma monotone_raise {X} e : monotone (raise (X:=X) e).
Proof. intros self. apply grows_refl. Qed.

Lemma monotone_attr {X} (f : HeapSort → X) : monotone (attr f).
Proof. intros self. apply grows_refl. Qed.

Lemma monotone_getitem i : monotone (getitem i).
Proof.
  intros self. unfold getitem. destruct (data self !! i); apply grows_refl.
Qed.

Lemma monotone_setitem i x : monotone (setitem i x).
Proof.
  intros self. unfold setitem. destruct (decide _); [|apply grows_refl].
  repeat split; cbn; auto. apply length_insert.
Qed.

Lemma monotone_update f : (∀ self, grows self (f self)) → monotone (update f).
Proof. intros Hf self. apply Hf. Qed.

Lemma monotone_bind {X Y} (m : M X) (f : X → M Y) :
  monotone m → (∀ x, monotone (f x)) → monotone (m ≫= f).
Proof.
  intros Hm Hf self. unfold mbind, M_bind, bind.
  specialize (Hm self). destruct (m self) as [[x|e] s1]; [|done].
  cbn in Hm. specialize (Hf x s1). by apply grows_trans with s1.
Qed.

Lemma monotone_for_each l body :
  (∀ i, monotone (body i)) → monotone (for_each l body).
Proof.
  intros Hb. induction l as [|i l IH]; [apply monotone_ret|].
  apply (monotone_bind (body i)); auto.
Qed.

Lemma grows_counted f self : (∀ c, c ≤ f c) → grows self (set_comparisons f self).
Proof. intros Hf. repeat split; cbn; auto. Qed.

Lemma grows_swap_counted f self : (∀ c, c ≤ f c) → grows self (set_swaps f self).
Proof. intros Hf. repeat split; cbn; auto. Qed.

Lemma grows_logged snap self : grows self (set_steps (λ log, log ++ [snap]) self).
Proof. repeat split; cbn; auto. by apply prefix_app_r. Qed.

Lemma grows_timed t self : grows self (set_execution_time t self).
Proof. by repeat split. Qed.

Ltac monotone_step :=
  first
    [ apply monotone_ret | apply monotone_raise | apply monotone_attr
    | apply monotone_getitem | apply monotone_setitem
    | apply monotone_update; intros ?;
        first [ apply grows_logged | apply grows_timed
              | apply grows_counted; intros ?; lia
              | apply grows_swap_counted; intros ?; lia ]
    | apply monotone_for_each; intros ?
    | apply monotone_bind; [|intros ?]
    | match goal with
      | |- monotone (if ?b then _ else _) => destruct b
      end ].

Lemma monotone_heapify depth : ∀ n i, monotone (_heapify depth n i).
Proof.
  induction depth as [|d IH]; intros n i; cbn [_heapify];
    repeat monotone_step; apply IH.
Qed.

Lemma monotone_build_heap depth : monotone (_build_heap depth).
Proof. unfold _build_heap. repeat monotone_step. apply monotone_heapify. Qed.

Lemma monotone_sort depth t0 t1 : monotone (sort depth t0 t1).
Proof.
  unfold sort. repeat monotone_step;
    first [apply monotone_build_heap | apply monotone_heapify].
Qed.

(** X1. Over any sequence of [sort] and [analyze] calls, returning or
    raising, the log keeps every snapshot it had and only receives new
    ones at its end, neither counter decreases, and the working sequence
    keeps its length. *)
Theorem instrumentation_only_grows depth calls self :
  steps self `prefix_of` steps (run depth calls self) ∧
  comparisons self ≤ comparisons (run depth calls self) ∧
  swaps self ≤ swaps (run depth calls self) ∧
  length (data (run depth calls self)) = length (data self).
Proof.
  change (grows self (run depth calls self)).
  revert self. induction calls as [|c calls IH]; intros self; [apply grows_refl|].
  apply grows_trans with (invoke depth c self); [|apply IH].
  destruct c as [t0 t1|]; cbn.
  - apply monotone_sort.
  - rewrite analyze_read_only. apply grows_refl.
Qed.

(** ** Index errors *)





(** X3. The heap size is not checked against the working sequence: when
    the left child [2i+1] lies inside the heap size [n] but beyond the end
    of [data], [_heapify n i] raises [IndexError] after counting one
    comparison, and changes nothing else. *)
Theorem _heapify_beyond_data depth n i self :
  length (data self) ≤ 2 * i + 1 → 2 * i + 1 < n →
  _heapify depth n i self =
    (Raise IndexError, set_comparisons (λ c, c + 1) self).
Proof.
  intros Hlen Hn.
  assert (Hnone : data self !! (2 * i + 1) = None) by by apply lookup_ge_None.
  destruct depth; cbn -[Nat.mul Nat.add];
    unfold mbind, M_bind, bind, update, getitem; cbn -[Nat.mul Nat.add];
    (destruct (decide (2 * i + 1 < n)); [|lia]); cbn -[Nat.mul Nat.add];
    by rewrite Hnone.
Qed.

(** ** How much work [sort] does *)

Lemma children_in_le n i : children_in n i ≤ 2.
Proof. unfold children_in. repeat destruct (decide _); lia. Qed.

(** A call that returns swaps at most once per level below its node and
    compares at most twice per invocation. *)
Lemma _heapify_cost depth : ∀ d n i self self',
  n ≤ length (data self) → n < (i + 1) * 2 ^ S d →
  _heapify depth n i self = (Ok tt, self') →
  swaps self' ≤ swaps self + d ∧
  comparisons self' + 2 * swaps self ≤ comparisons self + 2 * swaps self' + 2.
Proof.
  induction depth as [|depth IH]; intros d n i self self' Hn Hd;
    rewrite _heapify_step by done; cbn zeta;
    destruct (decide (select self n i ≠ i)) as [Hc|Hc]; intros Heq;
    try discriminate;
    try (injection Heq as <-; cbn; pose proof (children_in_le n i); lia).
  destruct (select_cases self n i) as [?|[Hch Hlt]]; [done|].
  destruct d as [|d]; [cbn in Hd; lia|].
  apply (IH d) in Heq; [| by rewrite swapped_length |].
  - cbn in Heq. pose proof (children_in_le n i). lia.
  - rewrite (Nat.pow_succ_r' 2 (S d)) in Hd. nia.
Qed.

Lemma for_each_desc_ok (I : nat → HeapSort → Prop) body lo : ∀ hi self self',
  lo ≤ hi → I hi self →
  (∀ i s s', lo ≤ i < hi → I (S i) s → body i s = (Ok tt, s') → I i s') →
  for_each (range_desc hi lo) body self = (Ok tt, self') → I lo self'.
Proof.
  induction hi as [|hi IH]; intros self self' Hlo Hinit Hbody.
  - assert (lo = 0) as -> by lia. cbn. by intros [= <-].
  - destruct (decide (lo = S hi)) as [->|Hne].
    { rewrite range_desc_empty by lia. cbn. by intros [= <-]. }
    rewrite range_desc_S, for_each_cons by lia.
    destruct (body hi self) as [[[]|e] s1] eqn:Hb; [|done].
    apply IH; [lia | by apply (Hbody hi self s1); [lia|..] |].
    intros i s s' Hi. apply Hbody. lia.
Qed.

Lemma sort_cost depth t0 t1 self result self' :
  sort depth t0 t1 self = (Ok result, self') →
  let n := length (data self) in
  swaps self' ≤ swaps self + (n / 2 + (n - 1)) * Nat.log2_up n ∧
  comparisons self' + 2 * swaps self ≤
    comparisons self + 2 * swaps self' + 2 * (n / 2 + (n - 1)).
Proof.
  intros Heq n. set (L := Nat.log2_up n).
  rewrite sort_unfold in Heq.
  destruct (_build_heap depth self) as [[[]|e] s1] eqn:Hbuild; [|done].
  destruct (for_each _ _ s1) as [[[]|e] s2] eqn:Hloop; [|done].
  injection Heq as _ <-. cbn [swaps comparisons set_execution_time].
  pose proof (Nat.div_mod_eq n 2) as Hdiv.
  assert (H1 : length (data s1) = n ∧
               swaps s1 ≤ swaps self + (n / 2 - 0) * L ∧
               comparisons s1 + 2 * swaps self ≤
                 comparisons self + 2 * swaps s1 + 2 * (n / 2 - 0)).
  { revert Hbuild. unfold _build_heap, mbind, M_bind, bind, attr. fold n.
    apply (for_each_desc_ok (λ m s, length (data s) = n ∧
             swaps s ≤ swaps self + (n / 2 - m) * L ∧
             comparisons s + 2 * swaps self ≤
               comparisons self + 2 * swaps s + 2 * (n / 2 - m))); [lia | |].
    { rewrite Nat.sub_diag. cbn. lia. }
    intros i s s' Hi (Hlen & Hsw & Hcmp) Hs.
    destruct (monotone_heapify depth n i s) as (_ & _ & _ & Hlen').
    rewrite Hs in Hlen'. cbn in Hlen'.
    destruct (_heapify_cost depth L n i s s') as [Hsw' Hcmp'];
      [lia | by apply depth_enough with n | done |].
    replace (n / 2 - i) with (S (n / 2 - S i)) by lia.
    split; [lia|]. split; [|lia]. rewrite Nat.mul_succ_l. lia. }
  destruct H1 as (Hlen1 & Hsw1 & Hcmp1). rewrite Hlen1 in Hloop.
  rewrite Nat.sub_0_r in Hsw1, Hcmp1.
  destruct (decide (n = 0)) as [Hn0|Hn0].
  { rewrite range_desc_empty in Hloop by lia. injection Hloop as <-. lia. }
  assert (H2 : length (data s2) = n ∧
               swaps s2 ≤ swaps s1 + (n - 1) * L ∧
               comparisons s2 + 2 * swaps s1 ≤
                 comparisons s1 + 2 * swaps s2 + 2 * (n - 1)).
  { revert Hloop.
    apply (for_each_desc_ok (λ m s, length (data s) = n ∧
             swaps s ≤ swaps s1 + (n - m) * L ∧
             comparisons s + 2 * swaps s1 ≤
               comparisons s1 + 2 * swaps s + 2 * (n - m))); [lia | |].
    { rewrite Nat.sub_diag. cbn. lia. }
    intros i s s' Hi (Hlen & Hsw & Hcmp).
    rewrite extract_max_step by lia. intros Hs.
    assert (Hlen' : length (data (extracted s i)) = n).
    { cbn. by rewrite swap_items_length. }
    destruct (monotone_heapify depth i 0 (extracted s i)) as (_ & _ & _ & Hlen'').
    rewrite Hs in Hlen''. cbn [snd] in Hlen''.
    destruct (_heapify_cost depth L i 0 (extracted s i) s') as [Hsw' Hcmp'];
      [lia | apply depth_enough with n; [lia | done] | done |].
    cbn [swaps comparisons extracted set_steps set_data] in Hsw', Hcmp'.
    replace (n - i) with (S (n - S i)) by lia.
    split; [lia|]. split; [|lia]. rewrite Nat.mul_succ_l. lia. }
  destruct H2 as (_ & Hsw2 & Hcmp2).
  rewrite Nat.mul_add_distr_r. lia.
Qed.

(** X4. On a fresh instance of [n] items [sort] counts at most
    [(n/2 + (n-1)) * log2_up n] swaps, and at most two comparisons for each
    swap and each of its [n/2 + (n-1)] own calls of [_heapify]. *)
Theorem sort_work_bound dflt input rv k depth t0 t1 :
  Nat.log2_up (length input) ≤ depth →
  ∃ result self',
    sort depth t0 t1 (__init__ dflt input rv k) = (Ok result, self') ∧
    swaps self' ≤
      (length input / 2 + (length input - 1)) * Nat.log2_up (length input) ∧
    comparisons self' ≤
      2 * (swaps self' + length input / 2 + (length input - 1)).
Proof.
  intros Hd.
  destruct (sort_effect depth t0 t1 (__init__ dflt input rv k) Hd)
    as (s & Heq & _).
  eexists _, _. split; [exact Heq|].
  apply sort_cost in Heq. cbn in Heq. cbn. lia.
Qed.

(** ** The log as a chain of exchanges *)

Lemma exchanges_app start e1 e2 :
  exchanges start e1 → exchanges (default start (last e1)) e2 →
  exchanges start (e1 ++ e2).
Proof.
  revert start. induction e1 as [|snap e1 IH]; intros start; [done|].
  intros [Hsnap He1] He2. split; [done|]. apply IH; [done|].
  rewrite last_cons in He2. by destruct (last e1).
Qed.

Lemma exchanges_perm start log :
  exchanges start log →
  Forall (λ snap, snap ≡ₚ start ∧ length snap = length start) log.
Proof.
  revert start. induction log as [|snap log IH]; intros start; [constructor|].
  intros [(i & j & _ & _ & ->) Hlog]. constructor.
  - split; [apply swap_items_perm | apply swap_items_length].
  - eapply Forall_impl; [by apply IH|]. intros l [Hp Hl]. cbn beta in *.
    split; [by rewrite Hp, swap_items_perm | by rewrite Hl, swap_items_length].
Qed.

Lemma traced_refl self : traced self self.
Proof. exists []. by rewrite app_nil_r. Qed.

Lemma traced_trans s1 s2 s3 : traced s1 s2 → traced s2 s3 → traced s1 s3.
Proof.
  intros (e1 & Hs1 & He1 & Hd1) (e2 & Hs2 & He2 & Hd2).
  exists (e1 ++ e2). split; [by rewrite Hs2, Hs1, app_assoc|]. split.
  - apply exchanges_app; [done|]. by rewrite <-Hd1.
  - rewrite Hd2, Hd1, last_app. by destruct (last e2).
Qed.

Lemma traced_exchange i j f g self :
  i < length (data self) → j < length (data self) →
  traced self
    (set_steps (λ log, log ++ [swap_items i j (data self)])
       (set_data (swap_items i j) (set_swaps f (set_comparisons g self)))).
Proof.
  intros Hi Hj. exists [swap_items i j (data self)]. cbn.
  split; [done|]. split; [|done]. split; [|done]. by exists i, j.
Qed.

Lemma _heapify_traced depth : ∀ n i self self',
  n ≤ length (data self) → i < n →
  _heapify depth n i self = (Ok tt, self') → traced self self'.
Proof.
  induction depth as [|d IH]; intros n i self self' Hn Hi;
    rewrite _heapify_step by done; cbn zeta;
    destruct (decide (select self n i ≠ i)) as [Hc|Hc]; intros Heq;
    try discriminate;
    try (injection Heq as <-; exists []; cbn; by rewrite app_nil_r).
  destruct (select_cases self n i) as [?|[Hch Hlt]]; [done|].
  apply traced_trans with (swapped self n i (select self n i)).
  - apply traced_exchange; lia.
  - eapply IH; [by rewrite swapped_length | | done]. done.
Qed.

Lemma sort_traced depth t0 t1 self result self' :
  sort depth t0 t1 self = (Ok result, self') → traced self self'.
Proof.
  intros Heq. rewrite sort_unfold in Heq.
  destruct (_build_heap depth self) as [[[]|e] s1] eqn:Hbuild; [|done].
  destruct (for_each _ _ s1) as [[[]|e] s2] eqn:Hloop; [|done].
  injection Heq as _ <-.
  set (n := length (data self)).
  assert (H1 : length (data s1) = n ∧ traced self s1).
  { revert Hbuild. unfold _build_heap, mbind, M_bind, bind, attr. fold n.
    pose proof (Nat.div_mod_eq n 2) as Hdiv.
    apply (for_each_desc_ok (λ _ s, length (data s) = n ∧ traced self s));
      [lia | split; [done | apply traced_refl] |].
    intros i s s' Hi [Hlen Htr] Hs. split.
    - destruct (monotone_heapify depth n i s) as (_ & _ & _ & Hlen').
      rewrite Hs in Hlen'. cbn in Hlen'. lia.
    - apply traced_trans with s; [done|].
      apply (_heapify_traced depth n i); [lia | lia | done]. }
  destruct H1 as [Hlen1 Htr1]. rewrite Hlen1 in Hloop.
  cut (traced self s2).
  { intros (ext & ? & ? & ?). by exists ext. }
  destruct (decide (n = 0)) as [Hn0|Hn0].
  { rewrite range_desc_empty in Hloop by lia. by injection Hloop as <-. }
  cut (length (data s2) = n ∧ traced self s2); [by intros [_ ?]|].
  revert Hloop.
  apply (for_each_desc_ok (λ _ s, length (data s) = n ∧ traced self s));
    [lia | done |].
  intros i s s' Hi [Hlen Htr].
  rewrite extract_max_step by lia. intros Hs.
  assert (Hlen' : length (data (extracted s i)) = n).
  { cbn. by rewrite swap_items_length. }
  split.
  - destruct (monotone_heapify depth i 0 (extracted s i)) as (_ & _ & _ & Hl).
    rewrite Hs in Hl. cbn [snd] in Hl. lia.
  - apply traced_trans with s; [done|].
    apply traced_trans with (extracted s i).
    + exists [swap_items 0 i (data s)]. cbn.
      split; [done|]. split; [|done]. split; [|done].
      exists 0, i. split; [lia|]. split; [lia | done].
    + apply (_heapify_traced depth i 0); [lia | lia | done].
Qed.

(** X5. After [sort] on a fresh instance the log is a chain of exchanges:
    the first snapshot is the input with two items exchanged, every later
    one is its predecessor with two items exchanged. Hence every snapshot
    is a permutation of the input, of the same length. *)
Theorem log_is_chain_of_exchanges dflt input rv k depth t0 t1 :
  Nat.log2_up (length input) ≤ depth →
  ∃ result self',
    sort depth t0 t1 (__init__ dflt input rv k) = (Ok result, self') ∧
    exchanges input (steps self') ∧
    Forall (λ snap, snap ≡ₚ input ∧ length snap = length input) (steps self').
Proof.
  intros Hd.
  destruct (sort_effect depth t0 t1 (__init__ dflt input rv k) Hd)
    as (s & Heq & _).
  eexists _, _. split; [exact Heq|].
  apply sort_traced in Heq as (ext & Hsteps & Hex & _).
  cbn in Hsteps, Hex. cbn [steps set_execution_time] in *. rewrite Hsteps.
  split; [done | by apply exchanges_perm].
Qed.

(** ** [sort] then [analyze] *)

(** X6. On an instance in any state, [sort] followed by [analyze] returns
    the record of that run: [data_size] is the length of the working
    sequence, [time] the difference of the two clock readings of this
    [sort], and the counters and the log length are those [sort] left. *)
Theorem analyze_after_sort depth t0 t1 self :
  Nat.log2_up (length (data self)) ≤ depth →
  ∃ result self',
    sort depth t0 t1 self = (Ok result, self') ∧
    analyze self' =
      (Ok [ ("data_size"%string, VInt (length (data self)));
            ("comparisons"%string, VInt (comparisons self'));
            ("swaps"%string, VInt (swaps self'));
            ("time"%string, VFloat (elapsed t1 t0));
            ("steps"%string, VInt (length (steps self'))) ],
       self').
Proof.
  intros Hd.
  destruct (sort_effect depth t0 t1 self Hd) as (s & Heq & Heff).
  eexists _, _. split; [exact Heq|].
  by rewrite <-(eff_length _ _ _ _ Heff).
Qed.

(** ** Heaps and orders, continued *)

Section Ordered.

Hypothesis gt_asym : ∀ a b, gt a b = true → gt b a = false.
Hypothesis gt_negtrans : ∀ a b c, gt a b = false → gt b c = false → gt a c = false.

(** X7. [_build_heap] returns, permutes the working sequence, and leaves a
    heap: every item dominates its two children, and the first item
    dominates all (greatest key, or least when [reverse] is set). *)
Theorem _build_heap_builds_heap depth self :
  Nat.log2_up (length (data self)) ≤ depth →
  ∃ self',
    _build_heap depth self = (Ok tt, self') ∧
    data self' ≡ₚ data self ∧
    (∀ p c x y, c = 2 * p + 1 ∨ c = 2 * p + 2 →
       data self' !! p = Some x → data self' !! c = Some y →
       dominates (reverse self) (key self) x y) ∧
    (∀ j x y, data self' !! 0 = Some x → data self' !! j = Some y →
       dominates (reverse self) (key self) x y).
Proof.
  intros Hd.
  destruct (_build_heap_heap gt_asym gt_negtrans depth self Hd)
    as (s & Heq & Heff & Hheap).
  pose proof (eff_length _ _ _ _ Heff) as Hlen.
  exists s. split; [done|]. split; [by apply (effect_perm _ _ _ _ Heff)|]. split.
  - intros p c x y Hc Hx Hy. apply (Hheap p ltac:(lia) c x y); auto.
    apply lookup_lt_Some in Hy. lia.
  - intros j x y Hx Hy.
    apply (heap_root _ (dominates_refl gt_asym _ _)
             (dominates_trans gt_negtrans _ _) (length (data self)) (data s)
             ltac:(lia) Hheap j x y); auto.
    apply lookup_lt_Some in Hy. lia.
Qed.

Lemma invoke_sort_sorted depth t0 t1 (input : list A) s0 self :
  Nat.log2_up (length input) ≤ depth →
  untouched s0 self → data self ≡ₚ input →
  untouched s0 (invoke depth (CallSort t0 t1) self) ∧
  data (invoke depth (CallSort t0 t1) self) ≡ₚ input ∧
  sorted_from (dominates (reverse s0) (key s0))
              (data (invoke depth (CallSort t0 t1) self)) 0 ∧
  is_Some (execution_time (invoke depth (CallSort t0 t1) self)).
Proof.
  intros Hd Hun Hp. cbn [invoke].
  destruct (sort_sorted gt_asym gt_negtrans depth t0 t1 self) as (s & -> & Heff & Hs).
  { by rewrite Hp. }
  cbn [snd data set_execution_time execution_time].
  destruct Hun as (Ho & Hr & Hk).
  split; [|split; [|split]].
  - repeat split; cbn;
      [rewrite (eff_original _ _ _ _ Heff) | rewrite (eff_reverse _ _ _ _ Heff)
      | rewrite (eff_key _ _ _ _ Heff)]; done.
  - by rewrite (effect_perm _ _ _ _ Heff).
  - by rewrite <-Hr, <-Hk.
  - eauto.
Qed.

(** X8. On a fresh instance, after any sequence of [sort] and [analyze]
    calls the working sequence is a permutation of the input; once the
    sequence holds a [sort], the working sequence is in order, the timing
    exists and [analyze] returns a record. *)
Theorem run_keeps_sorted dflt input rv k depth calls :
  Nat.log2_up (length input) ≤ depth →
  let final := run depth calls (__init__ dflt input rv k) in
  data final ≡ₚ input ∧
  ((∃ t0 t1, CallSort t0 t1 ∈ calls) →
     sorted_from (dominates rv (key final)) (data final) 0 ∧
     ∃ record, analyze final = (Ok record, final)).
Proof.
  intros Hd. cbn zeta.
  set (s0 := __init__ dflt input rv k).
  assert (Hgen : ∀ calls self,
    untouched s0 self → data self ≡ₚ input →
    let final := run depth calls self in
    untouched s0 final ∧ data final ≡ₚ input ∧
    (sorted_from (dominates (reverse s0) (key s0)) (data self) 0 ∧
       is_Some (execution_time self) ∨ (∃ t0 t1, CallSort t0 t1 ∈ calls) →
     sorted_from (dominates (reverse s0) (key s0)) (data final) 0 ∧
     is_Some (execution_time final))).
  { clear calls. induction calls as [|c calls IH]; intros self Hun Hp; cbn zeta.
    - split; [done|]. split; [done|]. intros [H|(t0 & t1 & H)]; [done|].
      by apply elem_of_nil in H.
    - change (run depth (c :: calls) self)
        with (run depth calls (invoke depth c self)).
      destruct c as [t0 t1|].
      + destruct (invoke_sort_sorted depth t0 t1 input s0 self Hd Hun Hp)
          as (Hun' & Hp' & Hs' & Ht').
        destruct (IH _ Hun' Hp') as (Hun'' & Hp'' & Hfin).
        split; [done|]. split; [done|]. intros _. apply Hfin. by left.
      + cbn [invoke]. rewrite analyze_read_only.
        destruct (IH _ Hun Hp) as (Hun'' & Hp'' & Hfin).
        split; [done|]. split; [done|].
        intros [H|(t0 & t1 & H)]; apply Hfin; [by left|right].
        apply elem_of_cons in H as [?|?]; [done|eauto]. }
  destruct (Hgen calls s0 (untouched_refl s0) ltac:(done)) as (Hun & Hp & Hfin).
  split; [done|]. intros Hsort.
  destruct Hfin as [Hs [t Ht]]; [by right|].
  destruct Hun as (_ & _ & Hk). split.
  - by rewrite Hk.
  - eexists. by apply analyze_fields.
Qed.

(** ** When equal keys mean equal items *)

Lemma sorted_from_Sorted (R : A → A → Prop) l :
  sorted_from R l 0 → Sorted (flip R) l.
Proof.
  induction l as [|x l IH]; intros Hs; [constructor|].
  constructor.
  - apply IH. intros j a b _ Ha Hb. apply (Hs (S j) a b); auto. lia.
  - destruct l as [|y l]; constructor.
    apply (Hs 0 x y); auto.
Qed.

Lemma sorted_perm_unique rv kf l1 l2 :
  (∀ x y, gt (kf x) (kf y) = false → gt (kf y) (kf x) = false → x = y) →
  sorted_from (dominates rv kf) l1 0 → sorted_from (dominates rv kf) l2 0 →
  l1 ≡ₚ l2 → l1 = l2.
Proof.
  intros Hties H1%sorted_from_Sorted H2%sorted_from_Sorted Hp.
  assert (Transitive (flip (dominates rv kf))).
  { intros x y z Hxy Hyz. unfold flip in *.
    by apply (dominates_trans gt_negtrans rv kf z y x). }
  assert (AntiSymm (=) (flip (dominates rv kf))).
  { intros x y. unfold flip, dominates. destruct rv; auto. }
  by apply (Sorted_unique (flip (dominates rv kf))).
Qed.

Lemma sorted_from_reverse kf l :
  sorted_from (dominates false kf) l 0 →
  sorted_from (dominates true kf) (list.reverse l) 0.
Proof.
  intros Hs j x y _ Hx Hy.
  pose proof (lookup_lt_Some _ _ _ Hy) as Hj. rewrite length_reverse in Hj.
  rewrite reverse_lookup in Hx, Hy by lia.
  replace (length l - S j) with (S (length l - S (S j))) in Hx by lia.
  apply (Hs _ y x ltac:(lia) Hy Hx).
Qed.


(** X10. When items with tied keys are equal, sorting with [reverse] set
    returns the reversal of what sorting without it returns. *)
Theorem reverse_sort_is_reversed_sort dflt input k depth t0 t1 :
  Nat.log2_up (length input) ≤ depth →
  (∀ x y, gt (key (__init__ dflt input false k) x) (key (__init__ dflt input false k) y) = false →
          gt (key (__init__ dflt input false k) y) (key (__init__ dflt input false k) x) = false →
          x = y) →
  ∃ ascending s descending s',
    sort depth t0 t1 (__init__ dflt input false k) = (Ok ascending, s) ∧
    sort depth t0 t1 (__init__ dflt input true k) = (Ok descending, s') ∧
    descending = list.reverse ascending.
Proof.
  intros Hd Hties.
  destruct (sort_sorted gt_asym gt_negtrans depth t0 t1
              (__init__ dflt input false k) Hd) as (a & Heqa & Heffa & Hsa).
  destruct (sort_sorted gt_asym gt_negtrans depth t0 t1
              (__init__ dflt input true k) Hd) as (b & Heqb & Heffb & Hsb).
  eexists _, _, _, _. split; [exact Heqa|]. split; [exact Heqb|].
  cbn [reverse key __init__] in Hsa, Hsb, Hties.
  apply (sorted_perm_unique true _ _ _ Hties); [done | by apply sorted_from_reverse |].
  rewrite reverse_Permutation.
  by rewrite (effect_perm _ _ _ _ Heffa), (effect_perm _ _ _ _ Heffb).
Qed.

End Ordered.

(** ** [visualize] *)


(** X12. A negative step is taken from the end of the log, as Python
    indexes lists: a step from [-len(steps)] to [-1] draws that snapshot,
    and a step below [-len(steps)] raises [IndexError] once the figure has
    been opened. *)
Theorem visualize_negative_step (st : Z) self :
  (st < 0)%Z →
  if bool_decide (- Z.of_nat (length (steps self)) ≤ st)%Z then
    ∃ snap,
      steps self !! (length (steps self) - Z.to_nat (- st)) = Some snap ∧
      visualize (Some st) self =
        (Ok tt, [plt_figure 10 6;
                 plt_bar (seq 0 (length snap)) snap;
                 plt_title ("Шаг сортировки: " +:+ pretty st);
                 plt_xlabel "Индекс"; plt_ylabel "Значение"; plt_show])
  else visualize (Some st) self = (Raise IndexError, [plt_figure 10 6]).
Proof.
  intros Hneg. unfold visualize, py_index.
  rewrite (bool_decide_eq_true_2 (st < _)%Z) by lia.
  rewrite (bool_decide_eq_false_2 (0 ≤ st)%Z) by lia.
  destruct (bool_decide (- Z.of_nat (length (steps self)) ≤ st)%Z) eqn:Hin; [|done].
  apply bool_decide_eq_true in Hin.
  replace (Z.to_nat (Z.of_nat (length (steps self)) + st))
    with (length (steps self) - Z.to_nat (- st)) by lia.
  destruct (lookup_lt_is_Some_2 (steps self)
              (length (steps self) - Z.to_nat (- st)) ltac:(lia)) as [snap Hsnap].
  exists snap. by rewrite Hsnap.
Qed.

(** ** [test_performance] *)

Lemma length_elapsed_pairs clk n : ∀ ticks,
  length (elapsed_pairs clk n ticks) = n.
Proof. induction n as [|n IH]; intros ticks; cbn; auto. Qed.

Lemma analyze_record_getitem (n c w l : nat) (t : timestamp) :
  let record := [ ("data_size"%string, VInt n); ("comparisons"%string, VInt c);
                  ("swaps"%string, VInt w); ("time"%string, VFloat t);
                  ("steps"%string, VInt l) ] in
  dict_getitem record "data_size" = Some (VInt n) ∧
  dict_getitem record "comparisons" = Some (VInt c) ∧
  dict_getitem record "swaps" = Some (VInt w) ∧
  dict_getitem record "time" = Some (VFloat t) ∧
  dict_getitem record "steps" = Some (VInt l).
Proof. by repeat split. Qed.

Lemma performance_loop_finishes depth dflt rnd clk : ∀ sizes draws ticks results out,
  Forall (λ size, Nat.log2_up size ≤ depth) sizes →
  ∃ stats prints,
    performance_loop depth dflt rnd clk sizes draws ticks results out =
      (Finished, results ++ stats, out ++ (io_print <$> prints)) ∧
    length prints = 5 * length sizes ∧
    Forall2 (λ r t, dict_getitem r "time" = Some t)
            stats (elapsed_pairs clk (length sizes) ticks) ∧
    Forall2 (λ r size, dict_getitem r "data_size" = Some (VInt size))
            stats sizes.
Proof.
  induction sizes as [|size sizes IH]; intros draws ticks results out Hd.
  - exists [], []. cbn. rewrite !app_nil_r. repeat split; constructor.
  - apply Forall_cons in Hd as [Hsize Hd].
    cbn [performance_loop].
    set (input := rnd <$> seq draws size).
    assert (Hlen : length input = size).
    { unfold input. by rewrite length_fmap, length_seq. }
    destruct (sort_effect depth (clk ticks) (clk (S ticks))
                (__init__ dflt input false None)) as (s & -> & Heff).
    { cbn. by rewrite Hlen. }
    rewrite (analyze_fields _ (elapsed (clk (S ticks)) (clk ticks))) by done.
    cbn [data comparisons swaps steps set_execution_time].
    rewrite (eff_length _ _ _ _ Heff). cbn [data __init__]. rewrite Hlen.
    destruct (analyze_record_getitem size (comparisons s) (swaps s)
                (length (steps s)) (elapsed (clk (S ticks)) (clk ticks)))
      as (Hsz & -> & -> & Htime & _).
    rewrite Htime.
    edestruct IH as (stats & prints & -> & Hp & Ht & Hs); [done|].
    eexists (_ :: stats), (_ :: _ :: _ :: _ :: _ :: prints).
    split; [|split; [|split]].
    + rewrite <-!app_assoc. cbn. reflexivity.
    + cbn. lia.
    + by constructor.
    + by constructor.
Qed.

(** X13. With a budget of nested calls that suffices for every size,
    [test_performance] finishes without a [KeyError] or an error of the
    sorter: it prints five lines per size and then plots, against the
    sizes, as many times, the [i]-th being the difference of the clock
    readings [2i+1] and [2i]. *)
Theorem test_performance_finishes depth dflt rnd clk data_sizes :
  Forall (λ size, Nat.log2_up size ≤ depth) data_sizes →
  ∃ prints,
    test_performance depth dflt rnd clk data_sizes =
      (Finished,
       (io_print <$> prints) ++
       (io_plt <$> [plt_plot data_sizes
                      (elapsed_pairs clk (length data_sizes) 0);
                    plt_xlabel "Размер данных";
                    plt_ylabel "Время (сек)";
                    plt_title "Производительность пирамидальной сортировки";
                    plt_show])) ∧
    length prints = 5 * length data_sizes ∧
    length (elapsed_pairs clk (length data_sizes) 0) = length data_sizes.
Proof.
  intros Hd. unfold test_performance.
  destruct (performance_loop_finishes depth dflt rnd clk data_sizes 0 0 [] [] Hd)
    as (stats & prints & -> & Hp & Ht & _).
  cbn [app]. apply mapM_Some_2 in Ht. rewrite Ht.
  exists prints. split; [done|]. split; [done|]. apply length_elapsed_pairs.
Qed.

(** X14. The record that [analyze] returns once the timing exists answers
    the keys [data_size], [comparisons], [swaps], [time] and [steps] with
    the attributes of the instance, and no other key. *)
Theorem analyze_record_keys self t :
  execution_time self = Some t →
  ∃ record,
    analyze self = (Ok record, self) ∧
    dict_getitem record "data_size" = Some (VInt (length (data self))) ∧
    dict_getitem record "comparisons" = Some (VInt (comparisons self)) ∧
    dict_getitem record "swaps" = Some (VInt (swaps self)) ∧
    dict_getitem record "time" = Some (VFloat t) ∧
    dict_getitem record "steps" = Some (VInt (length (steps self))) ∧
    ∀ k, k ∉ ["data_size"; "comparisons"; "swaps"; "time"; "steps"]%string →
         dict_getitem record k = None.
Proof.
  intros Ht. eexists. split; [by apply analyze_fields|].
  destruct (analyze_record_getitem (length (data self)) (comparisons self)
              (swaps self) (length (steps self)) t) as (?&?&?&?&?).
  repeat (split; [done|]).
  intros k Hk. cbn [dict_getitem].
  repeat (case_decide; [subst k; exfalso; apply Hk; repeat constructor|]). done.
Qed.

End HeapSort.

Arguments original_data {K timestamp A} _.
Arguments data {K timestamp A} _.
Arguments reverse {K timestamp A} _.
Arguments key {K timestamp A} _ _.
Arguments comparisons {K timestamp A} _.
Arguments swaps {K timestamp A} _.
Arguments steps {K timestamp A} _.
Arguments execution_time {K timestamp A} _.
Arguments __init__ {K timestamp A} dflt input rev k.
Arguments _heapify {K} gt {timestamp A} depth n i _.
Arguments sort {K} gt {timestamp} elapsed {A} depth t0 t1 _.
Arguments analyze {K timestamp A} _.
Arguments prefers {K} gt {timestamp A} self c p.
Arguments select {K} gt {timestamp A} self n i.
Arguments swapped {K timestamp A} self n i c.
Arguments effective_compare {K} gt {timestamp A} self x y.
Arguments set_comparisons {K timestamp A} f self.
Arguments set_execution_time {K timestamp A} t self.
Arguments VInt {timestamp} n.
Arguments VFloat {timestamp} t.

(** ** Concrete runs on natural numbers *)

Lemma nat_gt_asym a b : nat_gt a b = true → nat_gt b a = false.
Proof. unfold nat_gt. rewrite Nat.ltb_lt, Nat.ltb_ge. lia. Qed.

Lemma nat_gt_negtrans a b c :
  nat_gt a b = false → nat_gt b c = false → nat_gt a c = false.
Proof. unfold nat_gt. rewrite !Nat.ltb_ge. lia. Qed.

(** The budget counts nested calls: a swap at the root of a two-item heap
    needs one, although the nested call returns at once. *)
Example _heapify_budget_exhausted :
  (_heapify nat_gt 0 2 0 (__init__ (timestamp:=nat) id [1; 2] false None)).1
    = Raise RecursionError ∧
  (_heapify nat_gt 1 2 0 (__init__ (timestamp:=nat) id [1; 2] false None)).1
    = Ok tt.
Proof. by split. Qed.


Lemma swaps_are_logged_witness :
  (0 < 2 ∧ 2 ≤ length [1; 2] ∧ Nat.log2_up 2 ≤ 1 ∧
   ∃ self', _heapify nat_gt 1 2 0 (__init__ (timestamp:=nat) id [1; 2] false None)
              = (Ok tt, self') ∧
            length (steps self') + 0 = 0 + swaps self') ∧
  (Nat.log2_up (length [1; 2]) ≤ 1 ∧
   ∃ result self',
     sort nat_gt Nat.sub 1 7 9 (__init__ id [1; 2] false None) = (Ok result, self') ∧
     swaps self' ≤ length (steps self') ∧
     (length (steps self') = swaps self' ↔ length [1; 2] ≤ 1)).
Proof.
  destruct (swaps_are_logged nat nat_gt nat Nat.sub nat) as [Hheapify Hsort].
  split.
  - split; [lia|]. split; [vm_compute; lia|]. split; [vm_compute; lia|].
    apply (Hheapify 1 2 0 (__init__ id [1; 2] false None));
      [lia | vm_compute; lia | vm_compute; lia].
  - split; [vm_compute; lia|].
    apply (Hsort id [1; 2] false None 1 7 9). vm_compute; lia.
Defined.

Lemma step_count_is_not_swaps :
  ∃ self', sort nat_gt Nat.sub 1 7 9 (__init__ id [2; 1] false None)
             = (Ok [1; 2], self') ∧
           length (steps self') = 1 ∧ swaps self' = 0 ∧
           length (steps self') ≠ swaps self'.
Proof. eexists. split; [reflexivity|]. cbn. by repeat split. Qed.



Lemma analyze_fields_witness :
  execution_time (set_execution_time 2 (__init__ (K:=nat) id [3; 1] false None))
    = Some 2 ∧
  analyze (set_execution_time 2 (__init__ (K:=nat) id [3; 1] false None)) =
    (Ok [ ("data_size"%string, VInt 2); ("comparisons"%string, VInt 0);
          ("swaps"%string, VInt 0); ("time"%string, VFloat 2);
          ("steps"%string, VInt 0) ],
     set_execution_time 2 (__init__ id [3; 1] false None)).
Proof.
  split; [reflexivity|].
  apply (analyze_fields nat nat nat
           (set_execution_time 2 (__init__ id [3; 1] false None)) 2).
  reflexivity.
Defined.

Lemma analyze_keys_are_not_the_listed_names :
  ∃ self' record,
    sort nat_gt Nat.sub 1 7 9 (__init__ id [2; 1] false None) = (Ok [1; 2], self') ∧
    analyze self' = (Ok record, self') ∧
    record.*1 = ["data_size"; "comparisons"; "swaps"; "time"; "steps"]%string ∧
    record.*1 ≠ ["size"; "comparisons"; "swaps"; "elapsed_time"; "step_count"]%string.
Proof.
  eexists _, _. split; [reflexivity|]. split; [reflexivity|].
  split; [reflexivity|]. cbn. discriminate.
Qed.

Lemma last_step_is_result_witness :
  Nat.log2_up (length [4; 10; 3; 5; 1]) ≤ 3 ∧
  ∃ result self',
    sort nat_gt Nat.sub 3 7 9 (__init__ id [4; 10; 3; 5; 1] false None)
      = (Ok result, self') ∧
    result = data self' ∧
    (steps self' ≠ [] → last (steps self') = Some result).
Proof.
  split; [vm_compute; lia|].
  apply (last_step_is_result nat nat_gt nat Nat.sub nat id [4; 10; 3; 5; 1] false None 3 7 9).
  vm_compute; lia.
Defined.

Lemma _heapify_terminates_witness :
  (0 < 5 ∧ 5 ≤ length [4; 10; 3; 5; 1] ∧ Nat.log2_up 5 ≤ 3) ∧
  (∃ self', _heapify nat_gt 3 5 0 (__init__ (timestamp:=nat) id [4; 10; 3; 5; 1] false None)
              = (Ok tt, self')).
Proof.
  split; [split; [lia | split; vm_compute; lia]|].
  apply (_heapify_terminates nat nat_gt nat nat 3 5 0
           (__init__ id [4; 10; 3; 5; 1] false None));
    [lia | vm_compute; lia | vm_compute; lia].
Defined.

Lemma steps_are_swaps_plus_extractions_witness :
  Nat.log2_up (length [4; 10; 3; 5; 1]) ≤ 3 ∧
  ∃ result self',
    sort nat_gt Nat.sub 3 7 9 (__init__ id [4; 10; 3; 5; 1] false None)
      = (Ok result, self') ∧
    length (steps self') = swaps self' + (length [4; 10; 3; 5; 1] - 1).
Proof.
  split; [vm_compute; lia|].
  apply (steps_are_swaps_plus_extractions nat nat_gt nat Nat.sub nat
           id [4; 10; 3; 5; 1] false None 3 7 9).
  vm_compute; lia.
Defined.

Arguments visualize {K timestamp A} step self.
Arguments test_performance {K} gt {timestamp} elapsed {A} format_float
  depth dflt rnd clk data_sizes.
Arguments dict_getitem {timestamp} d k.
Arguments exchanges {A} start log.
Arguments dominates {K} gt {A} rev kf x y.
Arguments sorted_from {A} R l m.
Arguments _build_heap {K} gt {timestamp A} depth _.
Arguments run {K} gt {timestamp} elapsed {A} depth calls self.
Arguments CallSort {timestamp} t0 t1.
Arguments CallAnalyze {timestamp}.
Arguments plt_figure {timestamp A} width height.
Arguments plt_bar {timestamp A} x height.
Arguments plt_plot {timestamp A} x y.
Arguments plt_title {timestamp A} label.
Arguments plt_xlabel {timestamp A} label.
Arguments plt_ylabel {timestamp A} label.
Arguments plt_show {timestamp A}.
Arguments io_print {timestamp A} line.
Arguments io_plt {timestamp A} c.
Arguments elapsed_pairs {timestamp} elapsed clk n ticks.

(** ** Concrete runs for the further properties *)

Lemma nat_gt_ties (x y : nat) :
  nat_gt (id x) (id y) = false → nat_gt (id y) (id x) = false → x = y.
Proof. unfold nat_gt, id. rewrite !Nat.ltb_ge. lia. Qed.

Lemma _heapify_beyond_data_witness :
  (length [4; 10] ≤ 2 * 1 + 1 ∧ 2 * 1 + 1 < 5) ∧
  _heapify nat_gt 3 5 1 (__init__ (timestamp:=nat) id [4; 10] false None) =
    (Raise IndexError,
     set_comparisons (λ c, c + 1) (__init__ id [4; 10] false None)).
Proof.
  split; [cbn; lia|].
  apply (_heapify_beyond_data nat nat_gt nat nat 3 5 1
           (__init__ id [4; 10] false None)); cbn; lia.
Defined.

Lemma sort_work_bound_witness :
  Nat.log2_up (length [4; 10; 3; 5; 1]) ≤ 3 ∧
  ∃ result self',
    sort nat_gt Nat.sub 3 7 9 (__init__ id [4; 10; 3; 5; 1] false None)
      = (Ok result, self') ∧
    swaps self' ≤
      (length [4; 10; 3; 5; 1] / 2 + (length [4; 10; 3; 5; 1] - 1)) *
      Nat.log2_up (length [4; 10; 3; 5; 1]) ∧
    comparisons self' ≤
      2 * (swaps self' + length [4; 10; 3; 5; 1] / 2 +
           (length [4; 10; 3; 5; 1] - 1)).
Proof.
  split; [vm_compute; lia|].
  apply (sort_work_bound nat nat_gt nat Nat.sub nat
           id [4; 10; 3; 5; 1] false None 3 7 9).
  vm_compute; lia.
Defined.

Lemma log_is_chain_of_exchanges_witness :
  Nat.log2_up (length [4; 10; 3; 5; 1]) ≤ 3 ∧
  ∃ result self',
    sort nat_gt Nat.sub 3 7 9 (__init__ id [4; 10; 3; 5; 1] true None)
      = (Ok result, self') ∧
    exchanges [4; 10; 3; 5; 1] (steps self') ∧
    Forall (λ snap, snap ≡ₚ [4; 10; 3; 5; 1] ∧
                    length snap = length [4; 10; 3; 5; 1]) (steps self').
Proof.
  split; [vm_compute; lia|].
  apply (log_is_chain_of_exchanges nat nat_gt nat Nat.sub nat
           id [4; 10; 3; 5; 1] true None 3 7 9).
  vm_compute; lia.
Defined.

Lemma analyze_after_sort_witness :
  Nat.log2_up (length [2; 1]) ≤ 1 ∧
  ∃ result self',
    sort nat_gt Nat.sub 1 7 9 (__init__ id [2; 1] false None) = (Ok result, self') ∧
    analyze self' =
      (Ok [ ("data_size"%string, VInt 2);
            ("comparisons"%string, VInt (comparisons self'));
            ("swaps"%string, VInt (swaps self'));
            ("time"%string, VFloat 2);
            ("steps"%string, VInt (length (steps self'))) ],
       self').
Proof.
  split; [vm_compute; lia|].
  apply (analyze_after_sort nat nat_gt nat Nat.sub nat 1 7 9
           (__init__ id [2; 1] false None)).
  vm_compute; lia.
Defined.

Lemma _build_heap_builds_heap_witness :
  Nat.log2_up (length [4; 10; 3; 5; 1]) ≤ 3 ∧
  ∃ self',
    _build_heap nat_gt 3 (__init__ (timestamp:=nat) id [4; 10; 3; 5; 1] false None)
      = (Ok tt, self') ∧
    data self' ≡ₚ [4; 10; 3; 5; 1] ∧
    (∀ p c x y, c = 2 * p + 1 ∨ c = 2 * p + 2 →
       data self' !! p = Some x → data self' !! c = Some y →
       dominates nat_gt false id x y) ∧
    (∀ j x y, data self' !! 0 = Some x → data self' !! j = Some y →
       dominates nat_gt false id x y).
Proof.
  split; [vm_compute; lia|].
  apply (_build_heap_builds_heap nat nat_gt nat nat nat_gt_asym nat_gt_negtrans
           3 (__init__ id [4; 10; 3; 5; 1] false None)).
  vm_compute; lia.
Defined.

Lemma run_keeps_sorted_witness :
  Nat.log2_up (length [4; 10; 3; 5; 1]) ≤ 3 ∧
  (∃ t0 t1, CallSort t0 t1 ∈ [CallAnalyze; CallSort 7 9; CallAnalyze]) ∧
  let final := run nat_gt Nat.sub 3 [CallAnalyze; CallSort 7 9; CallAnalyze]
                 (__init__ id [4; 10; 3; 5; 1] true None) in
  data final ≡ₚ [4; 10; 3; 5; 1] ∧
  sorted_from (dominates nat_gt true (key final)) (data final) 0 ∧
  ∃ record, analyze final = (Ok record, final).
Proof.
  assert (Hd : Nat.log2_up (length [4; 10; 3; 5; 1]) ≤ 3) by (vm_compute; lia).
  assert (Hs : ∃ t0 t1 : nat,
            CallSort t0 t1 ∈ [CallAnalyze; CallSort 7 9; CallAnalyze]).
  { exists 7, 9. apply elem_of_cons. right. apply elem_of_cons. by left. }
  split; [exact Hd|]. split; [exact Hs|].
  destruct (run_keeps_sorted nat nat_gt nat Nat.sub nat nat_gt_asym nat_gt_negtrans
              id [4; 10; 3; 5; 1] true None 3
              [CallAnalyze; CallSort 7 9; CallAnalyze] Hd) as [Hp Hfin].
  split; [exact Hp | exact (Hfin Hs)].
Defined.


Lemma reverse_sort_is_reversed_sort_witness :
  (Nat.log2_up (length [4; 10; 3; 5; 1]) ≤ 3 ∧
   ∀ x y : nat, nat_gt (id x) (id y) = false → nat_gt (id y) (id x) = false →
                x = y) ∧
  ∃ ascending s descending s',
    sort nat_gt Nat.sub 3 7 9 (__init__ id [4; 10; 3; 5; 1] false None)
      = (Ok ascending, s) ∧
    sort nat_gt Nat.sub 3 7 9 (__init__ id [4; 10; 3; 5; 1] true None)
      = (Ok descending, s') ∧
    descending = list.reverse ascending.
Proof.
  split; [split; [vm_compute; lia | exact nat_gt_ties]|].
  apply (reverse_sort_is_reversed_sort nat nat_gt nat Nat.sub nat
           nat_gt_asym nat_gt_negtrans id [4; 10; 3; 5; 1] None 3 7 9);
    [vm_compute; lia | exact nat_gt_ties].
Defined.


Lemma visualize_negative_step_witness :
  (-1 < 0)%Z ∧
  visualize (Some (-1)%Z)
    (sort nat_gt Nat.sub 1 7 9 (__init__ id [2; 1] false None)).2 =
    (Ok tt, [plt_figure 10 6; plt_bar [0; 1] [1; 2];
             plt_title "Шаг сортировки: -1";
             plt_xlabel "Индекс"; plt_ylabel "Значение"; plt_show]).
Proof.
  split; [lia|].
  pose proof (visualize_negative_step nat nat nat (-1)%Z
    (sort nat_gt Nat.sub 1 7 9 (__init__ id [2; 1] false None)).2
    ltac:(lia)) as H.
  cbn in H. destruct H as (snap & [= <-] & H). exact H.
Defined.

Lemma test_performance_finishes_witness :
  Forall (λ size, Nat.log2_up size ≤ 2) [3; 0; 4] ∧
  ∃ prints,
    test_performance nat_gt Nat.sub (λ _ t, pretty t) 2 id (λ i, 7 * i mod 5)
      (λ i, 10 * i) [3; 0; 4] =
      (Finished,
       (io_print <$> prints) ++
       (io_plt <$> [plt_plot [3; 0; 4] [VFloat 10; VFloat 10; VFloat 10];
                    plt_xlabel "Размер данных";
                    plt_ylabel "Время (сек)";
                    plt_title "Производительность пирамидальной сортировки";
                    plt_show])) ∧
    length prints = 15.
Proof.
  assert (Hd : Forall (λ size, Nat.log2_up size ≤ 2) [3; 0; 4]).
  { repeat constructor; vm_compute; lia. }
  split; [exact Hd|].
  destruct (test_performance_finishes nat nat_gt nat Nat.sub nat (λ _ t, pretty t)
              2 id (λ i, 7 * i mod 5) (λ i, 10 * i) [3; 0; 4] Hd)
    as (prints & Heq & Hlen & _).
  exists prints. split; [exact Heq | exact Hlen].
Defined.

Lemma analyze_record_keys_witness :
  execution_time (set_execution_time 2 (__init__ (K:=nat) id [3; 1] false None))
    = Some 2 ∧
  ∃ record,
    analyze (set_execution_time 2 (__init__ (K:=nat) id [3; 1] false None))
      = (Ok record, set_execution_time 2 (__init__ id [3; 1] false None)) ∧
    dict_getitem record "time" = Some (VFloat 2) ∧
    dict_getitem record "elapsed_time" = None.
Proof.
  split; [reflexivity|].
  destruct (analyze_record_keys nat nat nat
              (set_execution_time 2 (__init__ id [3; 1] false None)) 2 eq_refl)
    as (record & Heq & _ & _ & _ & Ht & _ & Hnone).
  exists record. split; [exact Heq|]. split; [exact Ht|].
  apply Hnone. intros Hin. repeat (apply elem_of_cons in Hin as [Hin|Hin]; [discriminate|]).
  by apply elem_of_nil in Hin.
Defined.
